(** * calculater.py: the restricted expression evaluator

    A shallow embedding of [_SafeEval], [safe_eval] and the result
    normalisation of [CalculatorApp.calculate].

    The program is twenty lines of Python on top of the interpreter: the
    [ast] module builds the tree, [ast.NodeVisitor] dispatches on the node's
    class, and the arithmetic operators are Python's own.  The embedding has
    three layers:

    - [Py]: the values the evaluator handles and Python's arithmetic on
      them (integers as [Z], floats as binary64 [float]);
    - the tree of [ast] and the visitor, written after the source;
    - [Parser]: a model of [ast.parse] on the arithmetic fragment of
      Python's expression grammar.

    What the interpreter computes through the C library's transcendental
    functions is taken as a parameter ([host]).  [visit] is the visitor
    by structural recursion; [visit_frames] is the same visitor on the
    interpreter's stack, with its recursion limit.  The precedence of
    the operators is stated on [written] expressions: [show] writes one
    with the brackets it needs, and the parser reads it back. *)

From Stdlib Require Import ZArith Bool List String Ascii Floats Lia.
From Stdlib Require DecimalString.
Import ListNotations.

Local Open Scope string_scope.
Local Open Scope list_scope.
Local Open Scope Z_scope.

#[local] Set Warnings "-register-all".

(** ** Exceptions and results *)

(** The exceptions the evaluator meets.  [ValueError] carries its message:
    the program's own errors are all [ValueError]s and differ by it.  The
    interpreter's exceptions are kept by class. *)
Inductive exn : Type :=
| ValueError (msg : string)
| ZeroDivisionError
| TypeError
| OverflowError
| SyntaxError.

Inductive result (A : Type) : Type :=
| Return (a : A)
| Raise (e : exn).

Arguments Return {A} a.
Arguments Raise {A} e.

Definition bind {A B : Type} (r : result A) (k : A -> result B) : result B :=
  match r with
  | Return a => k a
  | Raise e => Raise e
  end.

Notation "x <- r ;; k" := (bind r (fun x => k))
  (at level 61, r at next level, right associativity).

(** ** The tree of [ast]

    The node classes of Python's [ast] module that an expression of the
    calculator can reach: the module [Expression], the expression classes
    built from names, numbers, calls, operators and brackets, and the
    operator and context classes.  The remaining expression classes
    ([Lambda], [Dict], the comprehensions, ...) are outside the embedding. *)

(** A complex number: real and imaginary part. *)
Definition complex : Type := (float * float)%type.

Module Ast.

Inductive operator : Type :=
| Add | Sub | Mult | MatMult | Div | Mod | Pow
| LShift | RShift | BitOr | BitXor | BitAnd | FloorDiv.

Inductive unaryop : Type :=
| Invert | Not | UAdd | USub.

Inductive boolop : Type :=
| And | Or.

Inductive cmpop : Type :=
| Eq | NotEq | Lt | LtE | Gt | GtE | Is | IsNot | In | NotIn.

Inductive expr_context : Type :=
| Load | Store | Del.

(** The value of a [Constant] node. *)
Inductive constant : Type :=
| CNone
| CBool (b : bool)
| CInt (z : Z)
| CFloat (f : float)
| CComplex (c : complex)
| CStr (s : string)
| CBytes (s : string)
| CEllipsis.

Inductive expr : Type :=
| BoolOp (op : boolop) (values : list expr)
| BinOp (left : expr) (op : operator) (right : expr)
| UnaryOp (op : unaryop) (operand : expr)
| IfExp (test body orelse : expr)
| Compare (left : expr) (ops : list cmpop) (comparators : list expr)
| Call (func : expr) (args : list expr) (keywords : list keyword)
| Constant (value : constant)
| Attribute (value : expr) (attr : string) (ctx : expr_context)
| Subscript (value slice : expr) (ctx : expr_context)
| Starred (value : expr) (ctx : expr_context)
| Name (id : string) (ctx : expr_context)
| List (elts : list expr) (ctx : expr_context)
| Tuple (elts : list expr) (ctx : expr_context)
with keyword : Type :=
| Keyword (arg : option string) (value : expr).

(** The root that [ast.parse(..., mode="eval")] returns. *)
Inductive ast_mod : Type :=
| Expression (body : expr).

(** [type(node).__name__]. *)
Definition class_name (node : expr) : string :=
  match node with
  | BoolOp _ _ => "BoolOp"
  | BinOp _ _ _ => "BinOp"
  | UnaryOp _ _ => "UnaryOp"
  | IfExp _ _ _ => "IfExp"
  | Compare _ _ _ => "Compare"
  | Call _ _ _ => "Call"
  | Constant _ => "Constant"
  | Attribute _ _ _ => "Attribute"
  | Subscript _ _ _ => "Subscript"
  | Starred _ _ => "Starred"
  | Name _ _ => "Name"
  | List _ _ => "List"
  | Tuple _ _ => "Tuple"
  end.

Definition context_class_name (ctx : expr_context) : string :=
  match ctx with
  | Load => "Load"
  | Store => "Store"
  | Del => "Del"
  end.

(** The depth of nesting of an expression: a leaf has depth 1. *)
Fixpoint depth (node : expr) : nat :=
  let deepest := fix deepest (l : list expr) : nat :=
    match l with
    | [] => O
    | x :: l' => Nat.max (depth x) (deepest l')
    end in
  match node with
  | BoolOp _ values => S (deepest values)
  | BinOp l _ r => S (Nat.max (depth l) (depth r))
  | UnaryOp _ operand => S (depth operand)
  | IfExp test body orelse =>
      S (Nat.max (depth test) (Nat.max (depth body) (depth orelse)))
  | Compare l _ comparators => S (Nat.max (depth l) (deepest comparators))
  | Call func args keywords =>
      S (Nat.max (depth func)
           (Nat.max (deepest args)
              ((fix deepest_kw (l : list keyword) : nat :=
                  match l with
                  | [] => O
                  | Keyword _ v :: l' => Nat.max (depth v) (deepest_kw l')
                  end) keywords)))
  | Constant _ => 1%nat
  | Attribute value _ _ => S (depth value)
  | Subscript value slice _ => S (Nat.max (depth value) (depth slice))
  | Starred value _ => S (depth value)
  | Name _ _ => 1%nat
  | List elts _ => S (deepest elts)
  | Tuple elts _ => S (deepest elts)
  end.

End Ast.

Import Ast.

(** ** Python's numbers *)

Module Py.

(** What a visit can return: a number, or [None] from the generic visitor. *)
Inductive value : Type :=
| VNone
| VBool (b : bool)
| VInt (z : Z)
| VFloat (f : float)
| VComplex (c : complex).

(** The operand of an arithmetic operator, once [bool] is read as the [int]
    it subclasses. *)
Inductive number : Type :=
| NInt (z : Z)
| NFloat (f : float)
| NComplex (c : complex).

Definition number_of (v : value) : option number :=
  match v with
  | VNone => None
  | VBool b => Some (NInt (if b then 1 else 0))
  | VInt z => Some (NInt z)
  | VFloat f => Some (NFloat f)
  | VComplex c => Some (NComplex c)
  end.

Definition value_of (n : number) : value :=
  match n with
  | NInt z => VInt z
  | NFloat f => VFloat f
  | NComplex c => VComplex c
  end.

(** *** binary64 helpers *)

Definition is_nan (f : float) : bool := negb (PrimFloat.eqb f f).

Definition is_infinity (f : float) : bool :=
  PrimFloat.eqb f infinity || PrimFloat.eqb f neg_infinity.

(** The integer a float is equal to, when it is finite and has no
    fractional part. *)
Definition integral_value (f : float) : option Z :=
  match Prim2SF f with
  | S754_zero _ => Some 0
  | S754_finite s m e =>
      let sgn := if s then Z.opp else (fun z => z) in
      if 0 <=? e then Some (sgn (Z.pos m * 2 ^ e))
      else if (Z.pos m) mod (2 ^ (- e)) =? 0
           then Some (sgn (Z.pos m / 2 ^ (- e)))
           else None
  | S754_infinity _ | S754_nan => None
  end.

(** [x == floor(x)] on a finite [x]; false on infinities and nan. *)
Definition is_integer (f : float) : bool :=
  match integral_value f with Some _ => true | None => false end.

(** [DOUBLE_IS_ODD_INTEGER]. *)
Definition is_odd_integer (f : float) : bool :=
  match integral_value f with Some z => Z.odd z | None => false end.

(** The nearest float to an integer scaled by a power of two (ties to
    even); infinite when out of range. *)
Definition round_Z (m e : Z) : float :=
  SF2Prim (binary_normalize prec emax m e false).

(** [PyLong_AsDouble]: the nearest float, or [OverflowError]. *)
Definition long_as_double (z : Z) : result float :=
  let f := round_Z z 0 in
  if is_infinity f then Raise OverflowError else Return f.

Definition spec_of_Z (z : Z) : spec_float :=
  match z with
  | Z0 => S754_zero false
  | Zpos p => S754_finite false p 0
  | Zneg p => S754_finite true p 0
  end.

(** [long_true_divide]: the correctly rounded quotient of two integers. *)
Definition long_true_divide (a b : Z) : result float :=
  if b =? 0 then Raise ZeroDivisionError
  else
    let q := SF2Prim (SFdiv prec emax (spec_of_Z a) (spec_of_Z b)) in
    if is_infinity q then Raise OverflowError else Return q.

(** C's [fmod]: the exact remainder of the truncating division, with the
    sign of the dividend. *)
Definition fmod (x y : float) : float :=
  match Prim2SF x, Prim2SF y with
  | S754_nan, _ | _, S754_nan => nan
  | S754_infinity _, _ => nan
  | _, S754_zero _ => nan
  | S754_zero _, _ => x
  | S754_finite _ _ _, S754_infinity _ => x
  | S754_finite sx mx ex, S754_finite _ my ey =>
      let e := Z.min ex ey in
      let r := Z.rem (Z.pos mx * 2 ^ (ex - e)) (Z.pos my * 2 ^ (ey - e)) in
      SF2Prim (binary_normalize prec emax (if sx then - r else r) e sx)
  end.

(** *** The platform

    What the interpreter leaves to the C library and to its complex type:
    [pow] on two finite doubles together with the range check that follows
    it ([None]: the result is out of range), and the arithmetic of complex
    operands together with the [errno] it sets. *)

Inductive errno : Type := ERANGE | EDOM.

Record host : Type := {
  platform_pow : float -> float -> option float;
  complex_binop : operator -> complex -> complex -> complex + errno
}.

Section Arithmetic.

Variable h : host.

Definition as_double (n : number) : result float :=
  match n with
  | NInt z => long_as_double z
  | NFloat f => Return f
  | NComplex _ => Raise TypeError
  end.

Definition as_complex (n : number) : result complex :=
  match n with
  | NComplex c => Return c
  | _ => re <- as_double n ;; Return (re, 0%float)
  end.

(** An operator with a complex operand: [%] is not defined on complex
    numbers; the others convert both operands and are the platform's. *)
Definition complex_op (op : operator) (a b : number) : result value :=
  match op with
  | Mod => Raise TypeError
  | _ =>
      x <- as_complex a ;;
      y <- as_complex b ;;
      match complex_binop h op x y with
      | inl c => Return (VComplex c)
      | inr EDOM => Raise ZeroDivisionError
      | inr ERANGE => Raise OverflowError
      end
  end.

(** The dispatch of a binary arithmetic operator on the classes of its
    operands: [int] with [int], anything with [complex], otherwise
    [float]; [None] has no arithmetic. *)
Definition binary (op : operator)
    (on_int : Z -> Z -> result value)
    (on_float : float -> float -> result value)
    (left right : value) : result value :=
  match number_of left, number_of right with
  | Some a, Some b =>
      match a, b with
      | NInt x, NInt y => on_int x y
      | NComplex _, _ | _, NComplex _ => complex_op op a b
      | _, _ => x <- as_double a ;; y <- as_double b ;; on_float x y
      end
  | _, _ => Raise TypeError
  end.

(** [float_rem]: [fmod], then the sign of the divisor. *)
Definition float_rem (vx wx : float) : result value :=
  if PrimFloat.eqb wx 0 then Raise ZeroDivisionError
  else
    let m := fmod vx wx in
    if negb (PrimFloat.eqb m 0) then
      if negb (Bool.eqb (PrimFloat.ltb wx 0) (PrimFloat.ltb m 0))
      then Return (VFloat (m + wx)%float)
      else Return (VFloat m)
    else Return (VFloat (if PrimFloat.ltb wx 0 then (-0)%float else 0%float)).

(** [float_pow]: the special cases the interpreter sorts out itself, the
    negative base with a fractional exponent, which it hands to complex
    exponentiation, and the platform's [pow] for the rest. *)
Definition float_pow (iv iw : float) : result value :=
  if PrimFloat.eqb iw 0 then Return (VFloat 1)
  else if is_nan iv then Return (VFloat iv)
  else if is_nan iw then
    Return (VFloat (if PrimFloat.eqb iv 1 then 1%float else iw))
  else if is_infinity iw then
    let av := PrimFloat.abs iv in
    if PrimFloat.eqb av 1 then Return (VFloat 1)
    else if Bool.eqb (PrimFloat.ltb 0 iw) (PrimFloat.ltb 1 av)
         then Return (VFloat (PrimFloat.abs iw))
         else Return (VFloat 0)
  else if is_infinity iv then
    let iw_is_odd := is_odd_integer iw in
    if PrimFloat.ltb 0 iw
    then Return (VFloat (if iw_is_odd then iv else PrimFloat.abs iv))
    else Return (VFloat (if iw_is_odd && PrimFloat.ltb iv 0
                         then (-0)%float else 0%float))
  else if PrimFloat.eqb iv 0 then
    if PrimFloat.ltb iw 0 then Raise ZeroDivisionError
    else Return (VFloat (if is_odd_integer iw then iv else 0%float))
  else if PrimFloat.ltb iv 0 && negb (is_integer iw) then
    complex_op Pow (NFloat iv) (NFloat iw)
  else
    let negate_result := PrimFloat.ltb iv 0 && is_odd_integer iw in
    let av := PrimFloat.abs iv in
    if PrimFloat.eqb av 1
    then Return (VFloat (if negate_result then (-1)%float else 1%float))
    else
      match platform_pow h av iw with
      | Some ix => Return (VFloat (if negate_result then (- ix)%float else ix))
      | None => Raise OverflowError
      end.

(** [long_pow]: exact for an exponent that is not negative, [float_pow]
    otherwise. *)
Definition long_pow (a b : Z) : result value :=
  if 0 <=? b then Return (VInt (a ^ b))
  else x <- long_as_double a ;; y <- long_as_double b ;; float_pow x y.

(** [left + right], [left - right], [left * right]. *)
Definition add : value -> value -> result value :=
  binary Add (fun x y => Return (VInt (x + y)))
             (fun x y => Return (VFloat (x + y)%float)).

Definition sub : value -> value -> result value :=
  binary Sub (fun x y => Return (VInt (x - y)))
             (fun x y => Return (VFloat (x - y)%float)).

Definition mul : value -> value -> result value :=
  binary Mult (fun x y => Return (VInt (x * y)))
              (fun x y => Return (VFloat (x * y)%float)).

(** [left / right]: true division, a float also for two integers. *)
Definition truediv : value -> value -> result value :=
  binary Div (fun x y => q <- long_true_divide x y ;; Return (VFloat q))
             (fun x y => if PrimFloat.eqb y 0 then Raise ZeroDivisionError
                         else Return (VFloat (x / y)%float)).

(** [left % right]: the remainder has the sign of the divisor. *)
Definition mod_ : value -> value -> result value :=
  binary Mod (fun x y => if y =? 0 then Raise ZeroDivisionError
                         else Return (VInt (x mod y)))
             float_rem.

(** [left ** right]. *)
Definition pow : value -> value -> result value :=
  binary Pow long_pow float_pow.

End Arithmetic.

(** [+operand] and [-operand]. *)
Definition pos (operand : value) : result value :=
  match number_of operand with
  | Some n => Return (value_of n)
  | None => Raise TypeError
  end.

Definition neg (operand : value) : result value :=
  match number_of operand with
  | Some (NInt z) => Return (VInt (- z))
  | Some (NFloat f) => Return (VFloat (- f)%float)
  | Some (NComplex (re, im)) => Return (VComplex ((- re)%float, (- im)%float))
  | None => Raise TypeError
  end.

(** [isinstance(result, float) and result.is_integer()], then
    [int(result)]: what [CalculatorApp.calculate] does to a result before
    it shows it. *)
Definition float_as_int (v : value) : value :=
  match v with
  | VFloat f =>
      match integral_value f with
      | Some z => VInt z
      | None => v
      end
  | _ => v
  end.

End Py.

Import Py.

(** ** The evaluator: [_SafeEval] *)

Definition ALLOWED_NODES : list string :=
  [ "Expression"; "BinOp"; "UnaryOp"; "Constant";
    "Add"; "Sub"; "Mult"; "Div"; "Mod"; "Pow";
    "UAdd"; "USub"; "Load"; "Call"; "Name"; "Tuple" ].

(** [isinstance(node, classes)], on the name of the node's class. *)
Definition isinstance (cls : string) (classes : list string) : bool :=
  existsb (String.eqb cls) classes.

Definition disallowed (cls : string) : exn :=
  ValueError ("Disallowed expression: " ++ cls).

(** [NodeVisitor.generic_visit] on a list field: every node of the list is
    visited in order, what the visits return is dropped, the first
    exception ends the walk. *)
Definition visit_each {A : Type} (visit : A -> result value)
  : list A -> result value :=
  fix each (l : list A) : result value :=
    match l with
    | [] => Return VNone
    | x :: l' => _ <- visit x ;; each l'
    end.

Section SafeEval.

Variable h : host.

(** [visit] on an [expr_context] node.  The class has no fields and no
    method of its own: after the guard, [generic_visit] returns [None]. *)
Definition visit_context (ctx : expr_context) : result value :=
  if negb (isinstance (context_class_name ctx) ALLOWED_NODES)
  then Raise (disallowed (context_class_name ctx))
  else Return VNone.

Definition visit_BinOp (visit : expr -> result value)
    (left : expr) (op : operator) (right : expr) : result value :=
  l <- visit left ;;
  r <- visit right ;;
  match op with
  | Add => add h l r
  | Sub => sub h l r
  | Mult => mul h l r
  | Div => truediv h l r
  | Mod => mod_ h l r
  | Pow => pow h l r
  | _ => Raise (ValueError "Unsupported operator")
  end.

Definition visit_UnaryOp (visit : expr -> result value)
    (op : unaryop) (operand : expr) : result value :=
  v <- visit operand ;;
  match op with
  | UAdd => pos v
  | USub => neg v
  | _ => Raise (ValueError "Unsupported unary operator")
  end.

(** [isinstance(node.value, (int, float))]: [bool] is a subclass of
    [int]. *)
Definition visit_Constant (value : constant) : result Py.value :=
  match value with
  | CInt z => Return (VInt z)
  | CBool b => Return (VBool b)
  | CFloat f => Return (VFloat f)
  | _ => Raise (ValueError "Only numeric constants are allowed")
  end.

(** [visit]: the guard on the node's class, then the dispatch of
    [NodeVisitor.visit]: [visit_BinOp], [visit_UnaryOp] and
    [visit_Constant] for their classes, [generic_visit] (the fields in
    the order of [_fields]) for the others. *)
Fixpoint visit (node : expr) : result value :=
  if negb (isinstance (class_name node) ALLOWED_NODES)
  then Raise (disallowed (class_name node))
  else
    match node with
    | BinOp l op r => visit_BinOp visit l op r
    | UnaryOp op operand => visit_UnaryOp visit op operand
    | Constant value => visit_Constant value
    | Call func args keywords =>
        _ <- visit func ;;
        _ <- visit_each visit args ;;
        _ <- visit_each visit_keyword keywords ;;
        Return VNone
    | Name _ ctx => visit_context ctx
    | Tuple elts ctx => _ <- visit_each visit elts ;; visit_context ctx
    | List elts ctx => _ <- visit_each visit elts ;; visit_context ctx
    | BoolOp _ values => visit_each visit values
    | IfExp test body orelse =>
        _ <- visit test ;; _ <- visit body ;; _ <- visit orelse ;;
        Return VNone
    | Compare l _ comparators =>
        _ <- visit l ;; visit_each visit comparators
    | Attribute value _ ctx => _ <- visit value ;; visit_context ctx
    | Subscript value slice ctx =>
        _ <- visit value ;; _ <- visit slice ;; visit_context ctx
    | Starred value ctx => _ <- visit value ;; visit_context ctx
    end
with visit_keyword (node : keyword) : result value :=
  if negb (isinstance "keyword" ALLOWED_NODES)
  then Raise (disallowed "keyword")
  else
    match node with
    | Keyword _ value => _ <- visit value ;; Return VNone
    end.

(** [visit_Expression], behind the guard of [visit]. *)
Definition visit_Expression (node : ast_mod) : result value :=
  match node with
  | Expression body => visit body
  end.

Definition visit_mod (node : ast_mod) : result value :=
  if negb (isinstance "Expression" ALLOWED_NODES)
  then Raise (disallowed "Expression")
  else visit_Expression node.

End SafeEval.

(** ** The interpreter's recursion limit

    [visit] above follows the tree by structural recursion.  The
    interpreter runs it on a stack of bounded depth: a call of a Python
    function needs a frame, and it raises [RecursionError] when none is
    left.  [visit_frames] is [visit] run with [frames] frames left: one
    level of the tree takes three, for [_SafeEval.visit],
    [NodeVisitor.visit] and the method it dispatches to. *)

Inductive limited (A : Type) : Type :=
| Within (r : result A)
| RecursionError.

Arguments Within {A} r.
Arguments RecursionError {A}.

Definition bind_limited {A B : Type} (r : limited A) (k : A -> limited B)
  : limited B :=
  match r with
  | Within (Return a) => k a
  | Within (Raise e) => Within (Raise e)
  | RecursionError => RecursionError
  end.

Notation "x <~ r ;; k" := (bind_limited r (fun x => k))
  (at level 61, r at next level, right associativity).

(** The call of a Python function: its body runs with one frame less. *)
Definition call {A : Type} (frames : nat) (body : nat -> limited A)
  : limited A :=
  match frames with
  | O => RecursionError
  | S frames' => body frames'
  end.

(** A step that needs [needed] levels of the stack while it runs and
    gives them back: a call into the interpreter that checks the depth. *)
Definition checked {A : Type} (needed frames : nat) (k : limited A)
  : limited A :=
  if (frames <? needed)%nat then RecursionError else k.

Definition visit_each_frames {A : Type} (visit : A -> limited value)
  : list A -> limited value :=
  fix each (l : list A) : limited value :=
    match l with
    | [] => Within (Return VNone)
    | x :: l' => _ <~ visit x ;; each l'
    end.

Definition binary_operator (h : host) (op : operator) (l r : value)
  : result value :=
  match op with
  | Add => add h l r
  | Sub => sub h l r
  | Mult => mul h l r
  | Div => truediv h l r
  | Mod => mod_ h l r
  | Pow => pow h l r
  | _ => Raise (ValueError "Unsupported operator")
  end.

Definition unary_operator (op : unaryop) (v : value) : result value :=
  match op with
  | UAdd => pos v
  | USub => neg v
  | _ => Raise (ValueError "Unsupported unary operator")
  end.

Section RecursionLimit.

Variable h : host.

(** The levels that [isinstance] with a tuple of classes needs while it
    runs: 1 on CPython 3.11 once the interpreter has specialised the
    call, 2 before. *)
Variable isinstance_depth : nat.

(** [_SafeEval.visit] on a node of class [cls]: its frame, the guard,
    then the frames of [NodeVisitor.visit] and of the method [dispatch]
    it calls. *)
Definition guarded (cls : string) (frames : nat)
    (dispatch : nat -> limited value) : limited value :=
  call frames (fun frames =>
    checked isinstance_depth frames
      (if negb (isinstance cls ALLOWED_NODES)
       then Within (Raise (disallowed cls))
       else call frames (fun frames => call frames dispatch))).

(** [NodeVisitor.generic_visit]: the generator [iter_fields] takes a
    level while it runs; [fields] is the walk over the fields. *)
Definition generic_visit (frames : nat) (fields : limited value)
  : limited value :=
  checked 1 frames fields.

Definition visit_context_frames (ctx : expr_context) (frames : nat)
  : limited value :=
  guarded (context_class_name ctx) frames (fun frames =>
    generic_visit frames (Within (Return VNone))).

Fixpoint visit_frames (node : expr) (frames : nat) {struct node}
  : limited value :=
  guarded (class_name node) frames (fun frames =>
    match node with
    | BinOp l op r =>
        a <~ visit_frames l frames ;;
        b <~ visit_frames r frames ;;
        Within (binary_operator h op a b)
    | UnaryOp op operand =>
        v <~ visit_frames operand frames ;;
        Within (unary_operator op v)
    | Constant value =>
        checked isinstance_depth frames (Within (visit_Constant value))
    | Call func args keywords =>
        generic_visit frames
          (_ <~ visit_frames func frames ;;
           _ <~ visit_each_frames (fun x => visit_frames x frames) args ;;
           _ <~ visit_each_frames (fun x => visit_keyword_frames x frames)
                  keywords ;;
           Within (Return VNone))
    | Name _ ctx => generic_visit frames (visit_context_frames ctx frames)
    | Tuple elts ctx =>
        generic_visit frames
          (_ <~ visit_each_frames (fun x => visit_frames x frames) elts ;;
           visit_context_frames ctx frames)
    | List elts ctx =>
        generic_visit frames
          (_ <~ visit_each_frames (fun x => visit_frames x frames) elts ;;
           visit_context_frames ctx frames)
    | BoolOp _ values =>
        generic_visit frames
          (visit_each_frames (fun x => visit_frames x frames) values)
    | IfExp test body orelse =>
        generic_visit frames
          (_ <~ visit_frames test frames ;; _ <~ visit_frames body frames ;;
           _ <~ visit_frames orelse frames ;; Within (Return VNone))
    | Compare l _ comparators =>
        generic_visit frames
          (_ <~ visit_frames l frames ;;
           visit_each_frames (fun x => visit_frames x frames) comparators)
    | Attribute value _ ctx =>
        generic_visit frames
          (_ <~ visit_frames value frames ;; visit_context_frames ctx frames)
    | Subscript value slice ctx =>
        generic_visit frames
          (_ <~ visit_frames value frames ;; _ <~ visit_frames slice frames ;;
           visit_context_frames ctx frames)
    | Starred value ctx =>
        generic_visit frames
          (_ <~ visit_frames value frames ;; visit_context_frames ctx frames)
    end)
with visit_keyword_frames (node : keyword) (frames : nat) {struct node}
  : limited value :=
  guarded "keyword" frames (fun frames =>
    match node with
    | Keyword _ value =>
        generic_visit frames
          (_ <~ visit_frames value frames ;; Within (Return VNone))
    end).

(** [evaluator.visit(node)] in [safe_eval], on the [Expression] that
    the parser returns. *)
Definition visit_mod_frames (node : ast_mod) (frames : nat) : limited value :=
  guarded "Expression" frames (fun frames =>
    match node with
    | Expression body => visit_frames body frames
    end).

End RecursionLimit.

(** ** The parser: [ast.parse(expr, mode="eval")]

    A model of the interpreter's tokenizer and parser on the arithmetic
    fragment of the expression grammar: decimal integers and
    digits-and-point floats, names, [True], [False] and [None], the
    operators [+ - * / // % ** ~], brackets, tuples, calls with positional
    arguments and attribute access.  [None] stands for a text that has no
    tree in this fragment: the interpreter rejects it, or it parses it with
    rules that are not modelled here. *)

Module Parser.

Inductive token : Type :=
| NUMBER (c : constant)
| NAME (id : string)
| PLUS | MINUS | STAR | DOUBLESTAR | SLASH | DOUBLESLASH | PERCENT | TILDE
| LPAR | RPAR | COMMA | DOT.

Definition code (c : ascii) : nat := nat_of_ascii c.

Definition is_digit (c : ascii) : bool :=
  (48 <=? code c)%nat && (code c <=? 57)%nat.

Definition is_name_start (c : ascii) : bool :=
  ((65 <=? code c)%nat && (code c <=? 90)%nat)
  || ((97 <=? code c)%nat && (code c <=? 122)%nat)
  || (code c =? 95)%nat.

Definition is_name_char (c : ascii) : bool := is_name_start c || is_digit c.

(** Blanks between tokens: space, tab, form feed. *)
Definition is_blank (c : ascii) : bool :=
  (code c =? 32)%nat || (code c =? 9)%nat || (code c =? 12)%nat.

Fixpoint span (p : ascii -> bool) (s : list ascii) : list ascii * list ascii :=
  match s with
  | c :: s' =>
      if p c then let '(a, b) := span p s' in (c :: a, b) else ([], s)
  | [] => ([], [])
  end.

Definition digits_value (ds : list ascii) : Z :=
  fold_left (fun acc d => 10 * acc + (Z.of_nat (code d) - 48)) ds 0.

(** The float a decimal literal denotes: the nearest to [digits / 10^k]. *)
Definition decimal_float (digits : list ascii) (k : nat) : float :=
  SF2Prim (SFdiv prec emax (spec_of_Z (digits_value digits))
                           (spec_of_Z (10 ^ Z.of_nat k))).

Definition keywords : list string :=
  [ "and"; "as"; "assert"; "async"; "await"; "break"; "class"; "continue";
    "def"; "del"; "elif"; "else"; "except"; "finally"; "for"; "from";
    "global"; "if"; "import"; "in"; "is"; "lambda"; "nonlocal"; "not";
    "or"; "pass"; "raise"; "return"; "try"; "while"; "with"; "yield" ].

Definition name_token (id : string) : option token :=
  if String.eqb id "True" then Some (NUMBER (CBool true))
  else if String.eqb id "False" then Some (NUMBER (CBool false))
  else if String.eqb id "None" then Some (NUMBER CNone)
  else if existsb (String.eqb id) keywords then None
  else Some (NAME id).

Definition followed_by_name_char (s : list ascii) : bool :=
  match s with
  | c :: _ => is_name_char c
  | [] => false
  end.

(** A number at the head of [s]: an integer (no leading zero unless it is
    all zeros) or digits with one point. *)
Definition number_token (s : list ascii) : option (token * list ascii) :=
  let '(int_part, rest) := span is_digit s in
  match rest with
  | "."%char :: rest' =>
      let '(frac, rest'') := span is_digit rest' in
      if followed_by_name_char rest'' then None
      else Some (NUMBER (CFloat (decimal_float (int_part ++ frac)%list (List.length frac))),
                 rest'')
  | _ =>
      if followed_by_name_char rest then None
      else
        match int_part with
        | "0"%char :: _ :: _ =>
            if forallb (Ascii.eqb "0"%char) int_part
            then Some (NUMBER (CInt 0), rest) else None
        | _ => Some (NUMBER (CInt (digits_value int_part)), rest)
        end
  end.

Fixpoint tokenize (fuel : nat) (s : list ascii) : option (list token) :=
  match fuel with
  | O => None
  | S fuel =>
      let emit (t : token) (rest : list ascii) :=
        option_map (cons t) (tokenize fuel rest) in
      match s with
      | [] => Some []
      | c :: s' =>
          if is_blank c then tokenize fuel s'
          else if is_digit c then
            match number_token s with
            | Some (t, rest) => emit t rest
            | None => None
            end
          else if is_name_start c then
            let '(id, rest) := span is_name_char s in
            match name_token (string_of_list_ascii id) with
            | Some t => emit t rest
            | None => None
            end
          else
            match c, s' with
            | "."%char, d :: _ =>
                if is_digit d then
                  match number_token s with
                  | Some (t, rest) => emit t rest
                  | None => None
                  end
                else emit DOT s'
            | "."%char, [] => emit DOT s'
            | "*"%char, "*"%char :: s'' => emit DOUBLESTAR s''
            | "/"%char, "/"%char :: s'' => emit DOUBLESLASH s''
            | "+"%char, _ => emit PLUS s'
            | "-"%char, _ => emit MINUS s'
            | "*"%char, _ => emit STAR s'
            | "/"%char, _ => emit SLASH s'
            | "%"%char, _ => emit PERCENT s'
            | "~"%char, _ => emit TILDE s'
            | "("%char, _ => emit LPAR s'
            | ")"%char, _ => emit RPAR s'
            | ","%char, _ => emit COMMA s'
            | _, _ => None
            end
      end
  end.

(** The grammar, one function per rule:
<<
    sum:     term (('+'|'-') term)*
    term:    factor (('*'|'/'|'//'|'%') factor)*
    factor:  ('+'|'-'|'~') factor | power
    power:   primary ['**' factor]
    primary: atom ('(' [sum (',' sum)* [',']] ')' | '.' NAME)*
    atom:    NUMBER | NAME | '(' ')' | '(' sum ')' | '(' sum ',' [sum (',' sum)* [',']] ')'
>>
    [fuel] bounds the depth of the descent. *)
Fixpoint sum (fuel : nat) (ts : list token) : option (expr * list token) :=
  match fuel with
  | O => None
  | S fuel =>
      match term fuel ts with
      | Some (e, ts') => sum_rest fuel e ts'
      | None => None
      end
  end
with sum_rest (fuel : nat) (acc : expr) (ts : list token)
  : option (expr * list token) :=
  match fuel with
  | O => None
  | S fuel =>
      let continue (op : operator) (ts' : list token) :=
        match term fuel ts' with
        | Some (r, ts'') => sum_rest fuel (BinOp acc op r) ts''
        | None => None
        end in
      match ts with
      | PLUS :: ts' => continue Add ts'
      | MINUS :: ts' => continue Sub ts'
      | _ => Some (acc, ts)
      end
  end
with term (fuel : nat) (ts : list token) : option (expr * list token) :=
  match fuel with
  | O => None
  | S fuel =>
      match factor fuel ts with
      | Some (e, ts') => term_rest fuel e ts'
      | None => None
      end
  end
with term_rest (fuel : nat) (acc : expr) (ts : list token)
  : option (expr * list token) :=
  match fuel with
  | O => None
  | S fuel =>
      let continue (op : operator) (ts' : list token) :=
        match factor fuel ts' with
        | Some (r, ts'') => term_rest fuel (BinOp acc op r) ts''
        | None => None
        end in
      match ts with
      | STAR :: ts' => continue Mult ts'
      | SLASH :: ts' => continue Div ts'
      | DOUBLESLASH :: ts' => continue FloorDiv ts'
      | PERCENT :: ts' => continue Mod ts'
      | _ => Some (acc, ts)
      end
  end
with factor (fuel : nat) (ts : list token) : option (expr * list token) :=
  match fuel with
  | O => None
  | S fuel =>
      let unary (op : unaryop) (ts' : list token) :=
        match factor fuel ts' with
        | Some (e, ts'') => Some (UnaryOp op e, ts'')
        | None => None
        end in
      match ts with
      | PLUS :: ts' => unary UAdd ts'
      | MINUS :: ts' => unary USub ts'
      | TILDE :: ts' => unary Invert ts'
      | _ => power fuel ts
      end
  end
with power (fuel : nat) (ts : list token) : option (expr * list token) :=
  match fuel with
  | O => None
  | S fuel =>
      match primary fuel ts with
      | Some (base, DOUBLESTAR :: ts') =>
          match factor fuel ts' with
          | Some (e, ts'') => Some (BinOp base Pow e, ts'')
          | None => None
          end
      | other => other
      end
  end
with primary (fuel : nat) (ts : list token) : option (expr * list token) :=
  match fuel with
  | O => None
  | S fuel =>
      match atom fuel ts with
      | Some (e, ts') => primary_rest fuel e ts'
      | None => None
      end
  end
with primary_rest (fuel : nat) (acc : expr) (ts : list token)
  : option (expr * list token) :=
  match fuel with
  | O => None
  | S fuel =>
      match ts with
      | LPAR :: ts' =>
          match items fuel ts' with
          | Some (args, ts'') => primary_rest fuel (Call acc args []) ts''
          | None => None
          end
      | DOT :: NAME attr :: ts' => primary_rest fuel (Attribute acc attr Load) ts'
      | DOT :: _ => None
      | _ => Some (acc, ts)
      end
  end
with atom (fuel : nat) (ts : list token) : option (expr * list token) :=
  match fuel with
  | O => None
  | S fuel =>
      match ts with
      | NUMBER c :: ts' => Some (Constant c, ts')
      | NAME id :: ts' => Some (Name id Load, ts')
      | LPAR :: RPAR :: ts' => Some (Tuple [] Load, ts')
      | LPAR :: ts' =>
          match sum fuel ts' with
          | Some (e, RPAR :: ts'') => Some (e, ts'')
          | Some (e, COMMA :: ts'') =>
              match items fuel ts'' with
              | Some (es, ts''') => Some (Tuple (e :: es) Load, ts''')
              | None => None
              end
          | _ => None
          end
      | _ => None
      end
  end
with items (fuel : nat) (ts : list token) : option (list expr * list token) :=
  (* the rest of a bracketed list, up to and with its closing bracket *)
  match fuel with
  | O => None
  | S fuel =>
      match ts with
      | RPAR :: ts' => Some ([], ts')
      | _ =>
          match sum fuel ts with
          | Some (e, RPAR :: ts') => Some ([e], ts')
          | Some (e, COMMA :: ts') =>
              match items fuel ts' with
              | Some (es, ts'') => Some (e :: es, ts'')
              | None => None
              end
          | _ => None
          end
      end
  end.

(** The rest of an unbracketed tuple at the top: [(',' sum)* [',']]. *)
Fixpoint top_items (fuel : nat) (ts : list token) : option (list expr) :=
  match fuel with
  | O => None
  | S fuel =>
      match ts with
      | [] => Some []
      | _ =>
          match sum fuel ts with
          | Some (e, []) => Some [e]
          | Some (e, COMMA :: ts') => option_map (cons e) (top_items fuel ts')
          | _ => None
          end
      end
  end.

Definition expressions (fuel : nat) (ts : list token) : option expr :=
  match sum fuel ts with
  | Some (e, []) => Some e
  | Some (e, COMMA :: ts') =>
      option_map (fun es => Tuple (e :: es) Load) (top_items fuel ts')
  | _ => None
  end.

Definition parse (source : string) : option ast_mod :=
  let s := list_ascii_of_string source in
  match tokenize (S (List.length s)) s with
  | Some ts => option_map Expression (expressions (8 * S (List.length ts)) ts)
  | None => None
  end.

End Parser.

(** ** [safe_eval] *)

(** The characters [str.strip()] removes, among the code points below 256. *)
Definition is_whitespace (c : ascii) : bool :=
  let n := nat_of_ascii c in
  ((9 <=? n)%nat && (n <=? 13)%nat)
  || ((28 <=? n)%nat && (n <=? 32)%nat)
  || (n =? 133)%nat || (n =? 160)%nat.

Fixpoint lstrip (s : list ascii) : list ascii :=
  match s with
  | c :: s' => if is_whitespace c then lstrip s' else s
  | [] => []
  end.

Definition strip (s : string) : string :=
  string_of_list_ascii
    (rev (lstrip (rev (lstrip (list_ascii_of_string s))))).

Section Entry.

Variable h : host.

(** [ast.parse(expr, mode="eval")]: the tree, or [None] when the
    interpreter raises [SyntaxError]. *)
Variable ast_parse : string -> option ast_mod.

Definition safe_eval (expr : string) : result value :=
  let expr := strip expr in
  if String.eqb expr EmptyString then Raise (ValueError "Empty expression")
  else
    match ast_parse expr with
    | Some node => visit_mod h node
    | None => Raise SyntaxError
    end.

(** The result [CalculatorApp.calculate] puts on the display, before
    [str]: the value of [safe_eval], an integer-valued float made an
    [int]. *)
Definition calculate (expr : string) : result value :=
  v <- safe_eval expr ;; Return (float_as_int v).

End Entry.

(** A platform for closed examples.  It knows one answer, the complex
    power [(-8+0j) ** (0.5+0j)] as CPython computes it on x86-64,
    [1.7319121124709868e-16+2.8284271247461903j], and reports a range
    error for everything else that the embedding leaves to the platform. *)
Definition sample_host : host :=
  {| platform_pow := fun _ _ => None;
     complex_binop := fun op a b =>
       match op with
       | Pow =>
           if PrimFloat.eqb (fst a) (-8) && PrimFloat.eqb (snd a) 0
              && PrimFloat.eqb (fst b) 0.5 && PrimFloat.eqb (snd b) 0
           then inl (0x1.8f5a0be038ed7p-53%float, 0x1.6a09e667f3bcdp+1%float)
           else inr ERANGE
       | _ => inr ERANGE
       end |}.

(** ** [CalculatorApp]

    The methods of the application that work on the text of the display
    ([display_var]): each is a function of the display, and returns the
    new one.  The widgets, the layout and the bindings of Tk are not
    modelled. *)

Module CalculatorApp.

(** [sub in s] on strings: [sub] occurs in [s]. *)
Fixpoint contains (s sub : string) : bool :=
  String.prefix sub s
  || match s with
     | EmptyString => false
     | String _ s' => contains s' sub
     end.

(** [s.count(c)] for a one-character [c]. *)
Fixpoint count (s : string) (c : ascii) : nat :=
  match s with
  | EmptyString => O
  | String a s' => ((if Ascii.eqb a c then 1 else 0) + count s' c)%nat
  end.

(** [s[:-1]] and [s[1:]]: on the empty string, both are the empty
    string. *)
Fixpoint drop_last (s : string) : string :=
  match s with
  | EmptyString => EmptyString
  | String _ EmptyString => EmptyString
  | String a s' => String a (drop_last s')
  end.

Definition drop_first (s : string) : string :=
  match s with
  | EmptyString => EmptyString
  | String _ s' => s'
  end.

(** The characters [on_key] lets through. *)
Definition allowed : string := "0123456789.+-*/()%".

Section App.

Variable h : host.
Variable ast_parse : string -> option ast_mod.

(** Python's [str] on a result of the evaluator; it can raise (an integer
    with more digits than the interpreter converts). *)
Variable str : value -> result string.

(** [calculate]: the new display and, when the evaluation or the
    conversion raised, the exception that the error dialog reports. *)
Definition calculate (display : string) : string * option exn :=
  match v <- calculate h ast_parse display ;; str v with
  | Return text => (text, None)
  | Raise e => (display, Some e)
  end.

Definition on_button (display ch : string) : string * option exn :=
  if String.eqb ch "=" then calculate display
  else ((display ++ ch)%string, None).

(** [char] is [event.char]: one character, or the empty string for a key
    that has none. *)
Definition on_key (display char : string) : string :=
  if contains allowed char then (display ++ char)%string else display.

Definition clear (display : string) : string := EmptyString.

Definition backspace (display : string) : string := drop_last display.

Definition insert_parens (display : string) : string :=
  if Nat.eqb (count display "("%char) (count display ")"%char)
  then (display ++ "(")%string
  else (display ++ ")")%string.

(** [str(-val)] for the value [val] of the display. *)
Definition opposite_text (display : string) : result string :=
  val <- safe_eval h ast_parse display ;;
  opposite <- neg val ;;
  str opposite.

(** [negate]: the text of the opposite of the value; when the
    evaluation, the negation or the conversion raises, a leading minus
    sign is removed or added. *)
Definition negate (display : string) : string :=
  if String.eqb display EmptyString then "-"
  else
    match opposite_text display with
    | Return text => text
    | Raise _ =>
        if String.prefix "-" display then drop_first display
        else ("-" ++ display)%string
    end.

End App.

End CalculatorApp.

(** A [str] for closed examples: Python's text of [None], of a [bool] and
    of an [int].  The text of a [float] or of a complex number, which
    takes the interpreter's shortest-digits conversion, is not covered:
    the stand-in raises on them. *)
Definition sample_str (v : value) : result string :=
  match v with
  | VNone => Return "None"
  | VBool true => Return "True"
  | VBool false => Return "False"
  | VInt z => Return (DecimalString.NilZero.string_of_int (Z.to_int z))
  | VFloat _ | VComplex _ => Raise (ValueError "str: not covered")
  end.

(** ** Vocabulary of the properties *)

(** The node kinds of the specification's expression tree: a numeric
    literal, a unary plus or minus, one of the six binary operators. *)
Definition in_arithmetic_subset (node : expr) : bool :=
  match node with
  | Constant (CInt _) | Constant (CFloat _) => true
  | UnaryOp UAdd _ | UnaryOp USub _ => true
  | BinOp _ Add _ | BinOp _ Sub _ | BinOp _ Mult _
  | BinOp _ Div _ | BinOp _ Mod _ | BinOp _ Pow _ => true
  | _ => false
  end.

(** The classes that [visit] lets through and that have no method of
    their own in [_SafeEval]. *)
Definition is_call_name_tuple (node : expr) : bool :=
  match node with
  | Call _ _ _ | Name _ _ | Tuple _ _ => true
  | _ => false
  end.

(** The outcome of a walk over children whose visits give [results], in
    their order: the exception of the first one that fails, [None] when
    they all return. *)
Fixpoint first_raise (results : list (result value)) : result value :=
  match results with
  | [] => Return VNone
  | Return _ :: results' => first_raise results'
  | Raise e :: _ => Raise e
  end.

(** What the visits of the children of a [Call], a [Name] or a [Tuple]
    give, in the order of the fields of the class. *)
Definition children_results (h : host) (node : expr) : list (result value) :=
  match node with
  | Call func args keywords =>
      (visit h func :: map (visit h) args) ++ map (visit_keyword h) keywords
  | Name _ ctx => [visit_context ctx]
  | Tuple elts ctx => map (visit h) elts ++ [visit_context ctx]
  | _ => []
  end.

(** The messages of the [ValueError]s that [_SafeEval] raises. *)
Definition visitor_message (msg : string) : Prop :=
  (exists cls, isinstance cls ALLOWED_NODES = false
               /\ msg = ("Disallowed expression: " ++ cls)%string)
  \/ msg = "Unsupported operator"
  \/ msg = "Unsupported unary operator"
  \/ msg = "Only numeric constants are allowed".

(** [right == 0] on a value. *)
Definition equals_zero (v : value) : bool :=
  match v with
  | VNone => false
  | VBool b => negb b
  | VInt z => z =? 0
  | VFloat f => PrimFloat.eqb f 0
  | VComplex (re, im) => PrimFloat.eqb re 0 && PrimFloat.eqb im 0
  end.

Definition is_float (v : value) : bool :=
  match v with VFloat _ => true | _ => false end.

(** An [int], a [bool] or a [float]. *)
Definition is_real (v : value) : bool :=
  match v with
  | VBool _ | VInt _ | VFloat _ => true
  | VNone | VComplex _ => false
  end.

(** The operand, as the [float] it is or converts to, when it does. *)
Definition to_float (v : value) : option float :=
  match v with
  | VBool _ | VInt _ | VFloat _ =>
      match number_of v with
      | Some n => match as_double n with Return f => Some f | Raise _ => None end
      | None => None
      end
  | _ => None
  end.

Definition is_finite (f : float) : bool := negb (is_nan f || is_infinity f).

(** A finite float that is not an integer. *)
Definition has_fraction (f : float) : bool := is_finite f && negb (is_integer f).

(** The operand as the integer it is, for an [int] or a [bool]. *)
Definition to_int (v : value) : option Z :=
  match v with
  | VBool b => Some (if b then 1 else 0)
  | VInt z => Some z
  | _ => None
  end.

(** The float nearest to the quotient of two integers, infinite when the
    quotient is beyond the floats. *)
Definition nearest_quotient (a b : Z) : float :=
  SF2Prim (SFdiv prec emax (spec_of_Z a) (spec_of_Z b)).

(** [x % y] on floats, for [y] that is not 0: the remainder of [fmod],
    brought to the sign of [y]. *)
Definition float_remainder (x y : float) : float :=
  let m := fmod x y in
  if PrimFloat.eqb m 0
  then (if PrimFloat.ltb y 0 then (-0)%float else 0%float)
  else if Bool.eqb (PrimFloat.ltb y 0) (PrimFloat.ltb m 0)
       then m else (m + y)%float.

(** [left / right] and [left % right] on numbers, for a right operand
    that is not 0.  Two integers: the float nearest to the quotient,
    [OverflowError] when there is none, and the remainder of the floor
    division.  Otherwise the quotient and the remainder of the operands
    as floats, [OverflowError] when an integer has none. *)
Definition quotient (l r : value) : result value :=
  match to_int l, to_int r with
  | Some a, Some b =>
      if is_infinity (nearest_quotient a b) then Raise OverflowError
      else Return (VFloat (nearest_quotient a b))
  | _, _ =>
      match to_float l, to_float r with
      | Some x, Some y => Return (VFloat (x / y)%float)
      | _, _ => Raise OverflowError
      end
  end.

Definition remainder (l r : value) : result value :=
  match to_int l, to_int r with
  | Some a, Some b => Return (VInt (a mod b))
  | _, _ =>
      match to_float l, to_float r with
      | Some x, Some y => Return (VFloat (float_remainder x y))
      | _, _ => Raise OverflowError
      end
  end.

(** A float of sign [s] that is finite and not 0, or the infinity. *)
Definition finite_or_infinite (s : bool) (x : spec_float) : Prop :=
  x = S754_infinity s
  \/ exists m e, x = S754_finite s m e /\ valid_binary x = true.

(** [n] unary plus signs over [node]. *)
Fixpoint nest (n : nat) (node : expr) : expr :=
  match n with
  | O => node
  | S n' => UnaryOp UAdd (nest n' node)
  end.

(** The complex power of two floats: the number the platform computes,
    or the exception of the error it reports. *)
Definition complex_power (h : host) (x y : float) : result value :=
  match complex_binop h Pow (x, 0%float) (y, 0%float) with
  | inl c => Return (VComplex c)
  | inr EDOM => Raise ZeroDivisionError
  | inr ERANGE => Raise OverflowError
  end.

(** A result that is not a [ValueError]. *)
Definition no_ValueError {A : Type} (r : result A) : Prop :=
  forall msg, r <> Raise (ValueError msg).

(** Every character of [s] is one of [set]. *)
Definition chars_in (set s : string) : bool :=
  forallb (fun c => existsb (Ascii.eqb c) (list_ascii_of_string set))
          (list_ascii_of_string s).

(** [n] closing brackets. *)
Fixpoint closing (n : nat) : string :=
  match n with
  | O => EmptyString
  | S n' => String ")" (closing n')
  end.

(** The operators [visit_BinOp] and [visit_UnaryOp] carry out. *)
Definition supported_operator (op : operator) : bool :=
  match op with
  | Add | Sub | Mult | Div | Mod | Pow => true
  | _ => false
  end.

Definition supported_unaryop (op : unaryop) : bool :=
  match op with
  | UAdd | USub => true
  | _ => false
  end.


(** A tree in which every node has a class of [ALLOWED_NODES], every
    constant is an [int], a [float] or a [bool], every operator is a
    supported one, every context is [Load] and no call has a keyword
    argument. *)
Fixpoint vetted (node : expr) : bool :=
  match node with
  | Constant (CInt _) | Constant (CFloat _) | Constant (CBool _) => true
  | UnaryOp op operand => supported_unaryop op && vetted operand
  | BinOp l op r => supported_operator op && vetted l && vetted r
  | Call func args keywords =>
      vetted func && forallb vetted args
      && match keywords with [] => true | _ => false end
  | Name _ Load => true
  | Tuple elts Load => forallb vetted elts
  | _ => false
  end.






(** *** Expressions as they are written

    The arithmetic expressions of the calculator with the brackets that
    the standard precedence and associativity of the operators make
    necessary, and no others: [**] binds tighter than the unary
    operators on its left, these tighter than [* / // %], these tighter
    than [+ -]; operators of one level group from the left, [**] from
    the right. *)

Inductive literal : Type :=
| Integer (digits : list ascii)
| Decimal (whole fraction : list ascii).

Inductive written : Type :=
| Number (n : literal)
| Unary (op : unaryop) (operand : written)
| Binary (l : written) (op : operator) (r : written).

(** The tree that the standard reading of the expression gives. *)
Definition literal_constant (n : literal) : constant :=
  match n with
  | Integer digits => CInt (Parser.digits_value digits)
  | Decimal whole fraction =>
      CFloat (Parser.decimal_float (whole ++ fraction) (List.length fraction))
  end.

Fixpoint tree (e : written) : expr :=
  match e with
  | Number n => Constant (literal_constant n)
  | Unary op operand => UnaryOp op (tree operand)
  | Binary l op r => BinOp (tree l) op (tree r)
  end.

(** The levels of the grammar: 0 for a sum, 1 for a term, 2 for a factor
    (a unary operator or a power), 3 for the base of a power. *)
Definition precedence (op : operator) : nat :=
  match op with
  | Pow => 2
  | Mult | Div | FloorDiv | Mod => 1
  | _ => 0
  end%nat.

Definition left_level (op : operator) : nat :=
  match op with Pow => 3 | _ => precedence op end%nat.

Definition right_level (op : operator) : nat :=
  match op with Pow => 2 | _ => S (precedence op) end%nat.

(** A piece of the text and the token it is. *)
Definition operator_lexeme (op : operator) : list ascii * Parser.token :=
  match op with
  | Sub => (["-"%char], Parser.MINUS)
  | Mult => (["*"%char], Parser.STAR)
  | Div => (["/"%char], Parser.SLASH)
  | FloorDiv => (["/"%char; "/"%char], Parser.DOUBLESLASH)
  | Mod => (["%"%char], Parser.PERCENT)
  | Pow => (["*"%char; "*"%char], Parser.DOUBLESTAR)
  | _ => (["+"%char], Parser.PLUS)
  end.

Definition unary_lexeme (op : unaryop) : list ascii * Parser.token :=
  match op with
  | USub => (["-"%char], Parser.MINUS)
  | Invert => (["~"%char], Parser.TILDE)
  | _ => (["+"%char], Parser.PLUS)
  end.

Definition literal_text (n : literal) : list ascii :=
  match n with
  | Integer digits => digits
  | Decimal whole fraction => whole ++ "."%char :: fraction
  end.

Definition bracket (b : bool) (body : list (list ascii * Parser.token))
  : list (list ascii * Parser.token) :=
  if b then (["("%char], Parser.LPAR) :: body ++ [([")"%char], Parser.RPAR)]
  else body.

(** The expression written where the grammar expects level [p]: in
    brackets when its own level is lower. *)
Fixpoint lexemes (p : nat) (e : written)
  : list (list ascii * Parser.token) :=
  match e with
  | Number n => [(literal_text n, Parser.NUMBER (literal_constant n))]
  | Unary op operand =>
      bracket (2 <? p)%nat (unary_lexeme op :: lexemes 2 operand)
  | Binary l op r =>
      bracket (precedence op <? p)%nat
        (lexemes (left_level op) l ++ operator_lexeme op
           :: lexemes (right_level op) r)
  end.

Definition show (e : written) : string :=
  string_of_list_ascii (List.concat (map fst (lexemes 0 e))).

(** The literals and the operators that the expressions are written
    with: decimal integers without a leading zero and of at most 4300
    digits (the interpreter converts no longer ones), decimals with a
    digit before the point, the unary operators [+ - ~] and the binary
    operators [+ - * / // % **]. *)
Definition well_written_literal (n : literal) : bool :=
  match n with
  | Integer digits =>
      forallb Parser.is_digit digits
      && match digits with
         | [] => false
         | ["0"%char] => true
         | d :: _ => negb (Ascii.eqb d "0"%char)
         end
      && (List.length digits <=? 4300)%nat
  | Decimal whole fraction =>
      forallb Parser.is_digit whole && forallb Parser.is_digit fraction
      && match whole with [] => false | _ => true end
  end.

Fixpoint well_written (e : written) : bool :=
  match e with
  | Number n => well_written_literal n
  | Unary op operand =>
      match op with Not => false | _ => true end && well_written operand
  | Binary l op r =>
      match op with
      | Add | Sub | Mult | Div | FloorDiv | Mod | Pow => true
      | _ => false
      end && well_written l && well_written r
  end.

(** *** The parser and the tokenizer on a written expression *)

Section Reading.

Import Parser.

Definition toks (p : nat) (e : written) : list token := map snd (lexemes p e).

(** More fuel does not change a result. *)
Definition stable {A B : Type} (rule : nat -> A -> option B) (f : nat) : Prop :=
  forall x r, rule f x = Some r -> rule (S f) x = Some r.

Definition stable2 {A B C : Type} (rule : nat -> A -> B -> option C) (f : nat)
  : Prop :=
  forall x y r, rule f x y = Some r -> rule (S f) x y = Some r.

(** The tokens after which an expression of a level ends: not one that
    the rule of the level goes on with. *)
Definition stops (p : nat) (rest : list token) : bool :=
  match rest with
  | LPAR :: _ | DOT :: _ => false
  | DOUBLESTAR :: _ => (3 <=? p)%nat
  | STAR :: _ | SLASH :: _ | DOUBLESLASH :: _ | PERCENT :: _ => (1 <=? p)%nat
  | _ => true
  end.

(** The tokens an expression begins with. *)
Definition opens_atom (ts : list token) : bool :=
  match ts with
  | NUMBER _ :: _ | LPAR :: _ => true
  | _ => false
  end.

Definition opens (ts : list token) : bool :=
  match ts with
  | NUMBER _ :: _ | LPAR :: _ | PLUS :: _ | MINUS :: _ | TILDE :: _ => true
  | _ => false
  end.

(** What it is for the rule of a level to read the tokens [ts] as the
    tree [t], with [n] units of fuel. *)
Definition primary_reads (ts : list token) (t : expr) (n : nat) : Prop :=
  forall rest f, stops 3 rest = true -> (n <= f)%nat ->
    primary f (ts ++ rest) = Some (t, rest).

Definition factor_reads (ts : list token) (t : expr) (n : nat) : Prop :=
  forall rest f, stops 2 rest = true -> (n <= f)%nat ->
    factor f (ts ++ rest) = Some (t, rest).

Definition term_reads (ts : list token) (t : expr) (n : nat) : Prop :=
  forall rest f res, stops 1 rest = true ->
    term_rest f t rest = Some res ->
    forall f', (f + n <= f')%nat -> term f' (ts ++ rest) = Some res.

Definition sum_reads (ts : list token) (t : expr) (n : nat) : Prop :=
  forall rest f res, stops 0 rest = true ->
    sum_rest f t rest = Some res ->
    forall f', (f + n <= f')%nat -> sum f' (ts ++ rest) = Some res.

Definition reads (p : nat) (ts : list token) (t : expr) (n : nat) : Prop :=
  match p with
  | 0 => sum_reads ts t n
  | 1 => term_reads ts t n
  | 2 => factor_reads ts t n
  | _ => primary_reads ts t n
  end%nat.

Definition budget (p len : nat) : nat :=
  match p with
  | 0 => 4 * len + 3
  | 1 => 4 * len + 1
  | 2 => 4 * len
  | _ => 4 * len - 2
  end%nat.

(** The level of an expression: the highest at which it is written
    without brackets. *)
Definition level (e : written) : nat :=
  match e with
  | Number _ => 3
  | Unary _ _ => 2
  | Binary _ op _ => precedence op
  end%nat.

(** *** The tokenizer on a written expression *)

(** What can follow a number: not a digit, a letter or a point. *)
Definition delimits (rest : list ascii) : bool :=
  match rest with
  | [] => true
  | c :: _ => negb (is_name_char c) && negb (Ascii.eqb c "."%char)
  end.

(** What an expression begins with: a digit, a bracket or a sign. *)
Definition begins (s : list ascii) : bool :=
  match s with
  | [] => false
  | c :: _ =>
      is_digit c
      || existsb (Ascii.eqb c) ["("%char; "+"%char; "-"%char; "~"%char]
  end.

(** A list of lexemes that the tokenizer cuts into its tokens, one unit
    of fuel for each. *)
Definition scans (ls : list (list ascii * token)) : Prop :=
  forall rest f, delimits rest = true ->
    tokenize (List.length ls + f) (List.concat (map fst ls) ++ rest)
    = option_map (app (map snd ls)) (tokenize f rest).

Definition chars (p : nat) (e : written) : list ascii :=
  List.concat (map fst (lexemes p e)).

Definition no_whitespace (s : list ascii) : bool :=
  forallb (fun c => negb (is_whitespace c)) s.

End Reading.

(** A run within the limit either exceeds it or ends as the run without
    a limit. *)
Definition agrees (l : limited value) (r : result value) : Prop :=
  l = RecursionError \/ l = Within r.

(** ** Induction over the tree *)

Section ExprInduction.

Variable P : expr -> Prop.
Variable Q : keyword -> Prop.

Hypothesis H_BoolOp : forall op values, Forall P values -> P (BoolOp op values).
Hypothesis H_BinOp : forall l op r, P l -> P r -> P (BinOp l op r).
Hypothesis H_UnaryOp : forall op operand, P operand -> P (UnaryOp op operand).
Hypothesis H_IfExp : forall t b o, P t -> P b -> P o -> P (IfExp t b o).
Hypothesis H_Compare : forall l ops cs, P l -> Forall P cs -> P (Compare l ops cs).
Hypothesis H_Call : forall f args kws,
  P f -> Forall P args -> Forall Q kws -> P (Call f args kws).
Hypothesis H_Constant : forall c, P (Constant c).
Hypothesis H_Attribute : forall v a ctx, P v -> P (Attribute v a ctx).
Hypothesis H_Subscript : forall v s ctx, P v -> P s -> P (Subscript v s ctx).
Hypothesis H_Starred : forall v ctx, P v -> P (Starred v ctx).
Hypothesis H_Name : forall id ctx, P (Name id ctx).
Hypothesis H_List : forall elts ctx, Forall P elts -> P (List elts ctx).
Hypothesis H_Tuple : forall elts ctx, Forall P elts -> P (Tuple elts ctx).
Hypothesis H_Keyword : forall arg v, P v -> Q (Keyword arg v).

Fixpoint expr_nested_ind (node : expr) : P node :=
  let all := fix all (l : list expr) : Forall P l :=
    match l with
    | [] => Forall_nil P
    | x :: l' => Forall_cons x (expr_nested_ind x) (all l')
    end in
  match node with
  | BoolOp op values => H_BoolOp op values (all values)
  | BinOp l op r => H_BinOp l op r (expr_nested_ind l) (expr_nested_ind r)
  | UnaryOp op operand => H_UnaryOp op operand (expr_nested_ind operand)
  | IfExp t b o =>
      H_IfExp t b o (expr_nested_ind t) (expr_nested_ind b) (expr_nested_ind o)
  | Compare l ops cs => H_Compare l ops cs (expr_nested_ind l) (all cs)
  | Call f args kws =>
      H_Call f args kws (expr_nested_ind f) (all args)
        ((fix all_kw (l : list keyword) : Forall Q l :=
            match l with
            | [] => Forall_nil Q
            | Keyword arg v :: l' =>
                Forall_cons (Keyword arg v)
                  (H_Keyword arg v (expr_nested_ind v)) (all_kw l')
            end) kws)
  | Constant c => H_Constant c
  | Attribute v a ctx => H_Attribute v a ctx (expr_nested_ind v)
  | Subscript v s ctx =>
      H_Subscript v s ctx (expr_nested_ind v) (expr_nested_ind s)
  | Starred v ctx => H_Starred v ctx (expr_nested_ind v)
  | Name id ctx => H_Name id ctx
  | List elts ctx => H_List elts ctx (all elts)
  | Tuple elts ctx => H_Tuple elts ctx (all elts)
  end.

End ExprInduction.

(** ** Auxiliary results *)

(** No arithmetic operator of the interpreter raises a [ValueError]. *)
Lemma bind_no_ValueError {A B} (r : result A) (k : A -> result B) :
  no_ValueError r -> (forall a, no_ValueError (k a)) -> no_ValueError (bind r k).
Proof.
  intros Hr Hk msg. destruct r as [a | e]; simpl.
  - apply Hk.
  - intros E. apply (Hr msg). injection E as ->. reflexivity.
Qed.

Ltac crush_no_ValueError :=
  repeat match goal with
  | |- no_ValueError (if ?b then _ else _) => destruct b
  | |- no_ValueError (match ?x with _ => _ end) => destruct x
  | |- no_ValueError (Return _) => intros ? ?; discriminate
  | |- no_ValueError (Raise _) => intros ? ?; discriminate
  end.

Lemma long_as_double_no_ValueError z : no_ValueError (long_as_double z).
Proof. unfold long_as_double. crush_no_ValueError. Qed.

Lemma as_double_no_ValueError n : no_ValueError (as_double n).
Proof.
  destruct n; simpl; try apply long_as_double_no_ValueError;
    intros ? ?; discriminate.
Qed.

Lemma as_complex_no_ValueError n : no_ValueError (as_complex n).
Proof.
  destruct n; simpl; try (intros ? ?; discriminate);
    apply bind_no_ValueError; try apply long_as_double_no_ValueError;
    intros; intros ? ?; discriminate.
Qed.

Lemma complex_op_no_ValueError h op a b : no_ValueError (complex_op h op a b).
Proof.
  unfold complex_op.
  destruct op; try (intros ? ?; discriminate);
    (apply bind_no_ValueError; [apply as_complex_no_ValueError|]; intros x;
     apply bind_no_ValueError; [apply as_complex_no_ValueError|]; intros y;
     crush_no_ValueError).
Qed.

Lemma binary_no_ValueError h op on_int on_float l r :
  (forall x y, no_ValueError (on_int x y)) ->
  (forall x y, no_ValueError (on_float x y)) ->
  no_ValueError (binary h op on_int on_float l r).
Proof.
  intros Hi Hf. unfold binary.
  destruct (number_of l) as [a|]; [|intros ? ?; discriminate].
  destruct (number_of r) as [b|]; [|intros ? ?; discriminate].
  destruct a, b; try apply Hi; try apply complex_op_no_ValueError;
    (apply bind_no_ValueError; [apply as_double_no_ValueError|]; intros x;
     apply bind_no_ValueError; [apply as_double_no_ValueError|]; intros y;
     apply Hf).
Qed.

Lemma float_pow_no_ValueError h x y : no_ValueError (float_pow h x y).
Proof.
  unfold float_pow.
  repeat match goal with
  | |- no_ValueError (complex_op _ _ _ _) => apply complex_op_no_ValueError
  | |- no_ValueError (if ?b then _ else _) => destruct b
  | |- no_ValueError (match ?x with _ => _ end) => destruct x
  | |- no_ValueError (Return _) => intros ? ?; discriminate
  | |- no_ValueError (Raise _) => intros ? ?; discriminate
  end.
Qed.

Lemma float_rem_no_ValueError x y : no_ValueError (float_rem x y).
Proof. unfold float_rem. crush_no_ValueError. Qed.

Lemma long_pow_no_ValueError h x y : no_ValueError (long_pow h x y).
Proof.
  unfold long_pow. destruct (0 <=? y); [intros ? ?; discriminate|].
  apply bind_no_ValueError; [apply long_as_double_no_ValueError|]; intros a.
  apply bind_no_ValueError; [apply long_as_double_no_ValueError|]; intros b.
  apply float_pow_no_ValueError.
Qed.

Lemma long_true_divide_no_ValueError x y : no_ValueError (long_true_divide x y).
Proof. unfold long_true_divide. crush_no_ValueError. Qed.

Lemma arithmetic_no_ValueError h l r :
  no_ValueError (add h l r) /\ no_ValueError (sub h l r)
  /\ no_ValueError (mul h l r) /\ no_ValueError (truediv h l r)
  /\ no_ValueError (mod_ h l r) /\ no_ValueError (pow h l r).
Proof.
  repeat split; apply binary_no_ValueError; intros;
    try apply float_pow_no_ValueError; try apply long_pow_no_ValueError;
    try apply float_rem_no_ValueError;
    try (apply bind_no_ValueError;
         [apply long_true_divide_no_ValueError | intros; intros ? ?; discriminate]);
    crush_no_ValueError.
Qed.

Lemma unary_no_ValueError v : no_ValueError (pos v) /\ no_ValueError (neg v).
Proof.
  split; [unfold pos | unfold neg]; crush_no_ValueError.
Qed.

Lemma bind_Raise_inv {A B} (r : result A) (k : A -> result B) e :
  bind r k = Raise e -> r = Raise e \/ exists a, r = Return a /\ k a = Raise e.
Proof.
  destruct r as [a | e']; simpl; intros E.
  - right. exists a. split; [reflexivity | exact E].
  - left. injection E as ->. reflexivity.
Qed.

Lemma bind_Return_inv {A B} (r : result A) (k : A -> result B) b :
  bind r k = Return b -> exists a, r = Return a /\ k a = Return b.
Proof.
  destruct r as [a | e']; simpl; intros E; [eauto | discriminate].
Qed.

Lemma disallowed_message cls :
  isinstance cls ALLOWED_NODES = false ->
  visitor_message ("Disallowed expression: " ++ cls).
Proof. intros H. left. exists cls. split; [exact H | reflexivity]. Qed.

Lemma visit_context_ValueError ctx msg :
  visit_context ctx = Raise (ValueError msg) -> visitor_message msg.
Proof.
  destruct ctx; cbv; intros E; try discriminate;
    injection E as <-; left; eexists; (split; [|reflexivity]); reflexivity.
Qed.

Lemma visit_each_ValueError {A} (visit : A -> result value) (l : list A) :
  Forall (fun x => forall msg, visit x = Raise (ValueError msg) -> visitor_message msg) l ->
  forall msg, visit_each visit l = Raise (ValueError msg) -> visitor_message msg.
Proof.
  induction 1 as [| x l Hx _ IH]; simpl; intros msg E; [discriminate|].
  apply bind_Raise_inv in E as [E | (_ & _ & E)]; eauto.
Qed.

Lemma visit_ValueError h node msg :
  visit h node = Raise (ValueError msg) -> visitor_message msg.
Proof.
  revert msg.
  induction node using expr_nested_ind
    with (Q := fun kw => forall msg,
                 visit_keyword h kw = Raise (ValueError msg) -> visitor_message msg);
    intros msg E;
    try (cbn in E; injection E as <-; apply disallowed_message; reflexivity).
  - (* BinOp *)
    change (visit h (BinOp node1 op node2))
      with (visit_BinOp h (visit h) node1 op node2) in E.
    unfold visit_BinOp in E.
    apply bind_Raise_inv in E as [E | (a & _ & E)]; [eauto|].
    apply bind_Raise_inv in E as [E | (b & _ & E)]; [eauto|].
    destruct (arithmetic_no_ValueError h a b) as (Ha & Hs & Hm & Hd & Hr & Hp).
    destruct op; try (injection E as <-; right; left; reflexivity);
      match goal with
      | H : no_ValueError ?r, E : ?r = Raise _ |- _ => exact (False_ind _ (H _ E))
      end.
  - (* UnaryOp *)
    change (visit h (UnaryOp op node))
      with (visit_UnaryOp (visit h) op node) in E.
    unfold visit_UnaryOp in E.
    apply bind_Raise_inv in E as [E | (a & _ & E)]; [eauto|].
    destruct (unary_no_ValueError a) as (Hp & Hn).
    destruct op; try (injection E as <-; right; right; left; reflexivity);
      match goal with
      | H : no_ValueError ?r, E : ?r = Raise _ |- _ => exact (False_ind _ (H _ E))
      end.
  - (* Call *)
    change (visit h (Call node args kws))
      with (_ <- visit h node ;; _ <- visit_each (visit h) args ;;
            _ <- visit_each (visit_keyword h) kws ;; Return VNone) in E.
    apply bind_Raise_inv in E as [E | (? & _ & E)]; [eauto|].
    apply bind_Raise_inv in E as [E | (? & _ & E)];
      [exact (visit_each_ValueError _ _ H _ E)|].
    apply bind_Raise_inv in E as [E | (? & _ & E)];
      [exact (visit_each_ValueError _ _ H0 _ E) | discriminate].
  - (* Constant *)
    change (visit h (Constant c)) with (visit_Constant c) in E.
    destruct c; simpl in E; try discriminate;
      injection E as <-; right; right; right; reflexivity.
  - (* Name *)
    change (visit h (Name id ctx)) with (visit_context ctx) in E.
    eapply visit_context_ValueError; eauto.
  - (* Tuple *)
    change (visit h (Tuple elts ctx))
      with (_ <- visit_each (visit h) elts ;; visit_context ctx) in E.
    apply bind_Raise_inv in E as [E | (? & _ & E)];
      [exact (visit_each_ValueError _ _ H _ E)|].
    eapply visit_context_ValueError; eauto.
Qed.

Lemma lstrip_nil l : lstrip l = [] <-> forallb is_whitespace l = true.
Proof.
  induction l as [| c l IH]; simpl; [tauto|].
  destruct (is_whitespace c); simpl; [exact IH|].
  split; discriminate.
Qed.

Lemma lstrip_all_whitespace l :
  forallb is_whitespace (lstrip l) = true -> lstrip l = [].
Proof.
  induction l as [| c l IH]; simpl; [reflexivity|].
  destruct (is_whitespace c) eqn:Hc; [exact IH|].
  simpl. rewrite Hc. discriminate.
Qed.

Lemma forallb_rev {A} (p : A -> bool) l : forallb p (rev l) = forallb p l.
Proof.
  induction l as [| x l IH]; simpl; [reflexivity|].
  rewrite forallb_app, IH. simpl. rewrite andb_true_r. apply andb_comm.
Qed.

Lemma string_of_list_ascii_nil l : string_of_list_ascii l = EmptyString <-> l = [].
Proof. destruct l; simpl; split; congruence. Qed.

Lemma rev_nil {A} (l : list A) : rev l = [] <-> l = [].
Proof.
  split; intros H; [|subst; reflexivity].
  rewrite <- (rev_involutive l), H. reflexivity.
Qed.

Lemma strip_empty s :
  strip s = EmptyString <-> forallb is_whitespace (list_ascii_of_string s) = true.
Proof.
  unfold strip.
  rewrite string_of_list_ascii_nil, rev_nil, lstrip_nil, forallb_rev.
  split.
  - intros H. apply lstrip_nil. apply lstrip_all_whitespace. exact H.
  - intros H. apply lstrip_nil in H. rewrite H. reflexivity.
Qed.

Lemma Prim2SF_zero : Prim2SF 0 = S754_zero false.
Proof. reflexivity. Qed.

Lemma SFeqb_finite_refl s m e :
  SFeqb (S754_finite s m e) (S754_finite s m e) = true.
Proof.
  unfold SFeqb, SFcompare.
  rewrite Z.compare_refl, Pos.compare_cont_refl. destruct s; reflexivity.
Qed.

Lemma negative_finite x :
  PrimFloat.ltb x 0 = true -> is_infinity x = false ->
  exists m e, Prim2SF x = S754_finite true m e.
Proof.
  unfold is_infinity. rewrite ltb_spec, !eqb_spec, Prim2SF_zero.
  change (Prim2SF infinity) with (S754_infinity false).
  change (Prim2SF neg_infinity) with (S754_infinity true).
  destruct (Prim2SF x) as [s | s | | s m e]; try discriminate.
  - destruct s; discriminate.
  - destruct s; [eauto | discriminate].
Qed.

Lemma negative_tests x :
  PrimFloat.ltb x 0 = true -> is_infinity x = false ->
  is_nan x = false /\ PrimFloat.eqb x 0 = false.
Proof.
  intros Hlt Hinf. destruct (negative_finite x Hlt Hinf) as (m & e & Hx).
  unfold is_nan. rewrite !eqb_spec, Prim2SF_zero, Hx, SFeqb_finite_refl.
  split; reflexivity.
Qed.

Lemma fraction_tests y :
  has_fraction y = true ->
  PrimFloat.eqb y 0 = false /\ is_nan y = false /\ is_infinity y = false
  /\ is_integer y = false.
Proof.
  unfold has_fraction, is_finite. intros H.
  apply andb_true_iff in H as (Hfin & Hint).
  apply negb_true_iff in Hfin, Hint. apply orb_false_iff in Hfin as (Hnan & Hinf).
  repeat split; try assumption.
  rewrite eqb_spec, Prim2SF_zero.
  unfold is_integer, integral_value in Hint.
  destruct (Prim2SF y) as [s | s | | s m e]; try discriminate; try reflexivity.
  - destruct s; reflexivity.
  - destruct s; reflexivity.
Qed.

Lemma float_pow_negative_fraction h x y :
  PrimFloat.ltb x 0 = true -> is_infinity x = false -> has_fraction y = true ->
  float_pow h x y = complex_op h Pow (NFloat x) (NFloat y).
Proof.
  intros Hlt Hinf Hy.
  destruct (negative_tests x Hlt Hinf) as (Hnan & Hz).
  destruct (fraction_tests y Hy) as (Hy0 & Hynan & Hyinf & Hyint).
  unfold float_pow.
  rewrite Hy0, Hnan, Hynan, Hyinf, Hinf, Hz, Hlt, Hyint. reflexivity.
Qed.

(** * The claims *)

(** ** C1: what the guard of [visit] rejects *)

(** C1, counterexample.  A call, a name and a tuple are outside the
    arithmetic node kinds of the specification, and [visit] returns [None]
    on each of them instead of failing: ["abs(4)"] parses to a [Call]. *)
Lemma C1_call_name_tuple_not_rejected :
  let call := Call (Name "abs" Load) [Constant (CInt 4)] [] in
  let name := Name "x" Load in
  let tuple := Tuple [Constant (CInt 1); Constant (CInt 2)] Load in
  (in_arithmetic_subset call = false
   /\ in_arithmetic_subset name = false
   /\ in_arithmetic_subset tuple = false)
  /\ Parser.parse "abs(4)" = Some (Expression call)
  /\ (forall h, visit h call = Return VNone)
  /\ (forall h, visit h name = Return VNone)
  /\ (forall h, visit h tuple = Return VNone).
Proof. cbv zeta. repeat split. Qed.

(** C1, amended.  A node whose class is not in [ALLOWED_NODES] fails with
    [ValueError("Disallowed expression: <class>")], whatever its fields. *)
Theorem visit_rejects_class_outside_ALLOWED_NODES (h : host) (node : expr) :
  isinstance (class_name node) ALLOWED_NODES = false ->
  visit h node
  = Raise (ValueError ("Disallowed expression: " ++ class_name node)).
Proof.
  destruct node; simpl; intros H; try reflexivity; discriminate H.
Qed.

Lemma visit_rejects_class_outside_ALLOWED_NODES_witness :
  visit sample_host (Attribute (Name "x" Load) "y" Load)
  = Raise (ValueError "Disallowed expression: Attribute").
Proof.
  apply (visit_rejects_class_outside_ALLOWED_NODES sample_host
           (Attribute (Name "x" Load) "y" Load)).
  reflexivity.
Defined.

(** ** C2: the constants [visit_Constant] accepts *)

(** C2, the code at the failing input.  [visit_Constant] returns a boolean
    constant as it is: [True] evaluates to [True].  The other constants
    that are not an [int] or a [float] are refused. *)
Theorem visit_Constant_returns_bool :
  (forall b, visit_Constant (CBool b) = Return (VBool b))
  /\ (forall h, safe_eval h Parser.parse "True" = Return (VBool true))
  /\ (forall c,
        match c with
        | CInt z => visit_Constant c = Return (VInt z)
        | CFloat f => visit_Constant c = Return (VFloat f)
        | CBool b => visit_Constant c = Return (VBool b)
        | _ => visit_Constant c
               = Raise (ValueError "Only numeric constants are allowed")
        end).
Proof.
  split; [reflexivity|]. split; [reflexivity|].
  intros c; destruct c; reflexivity.
Qed.

(** ** C3: a negative base with a fractional exponent *)

Lemma pow_negative_fraction h l x y :
  to_float l = Some x ->
  PrimFloat.ltb x 0 = true -> is_infinity x = false -> has_fraction y = true ->
  pow h l (VFloat y) = complex_power h x y.
Proof.
  intros Hl Hlt Hinf Hy. unfold pow, binary, to_float in *.
  destruct l as [| b | z | f | c]; try discriminate; simpl in *.
  - destruct (long_as_double (if b then 1 else 0)) as [x' |] eqn:E; [|discriminate].
    injection Hl as ->. simpl.
    rewrite float_pow_negative_fraction by assumption. reflexivity.
  - destruct (long_as_double z) as [x' |] eqn:E; [|discriminate].
    injection Hl as ->. simpl.
    rewrite float_pow_negative_fraction by assumption. reflexivity.
  - injection Hl as ->.
    rewrite float_pow_negative_fraction by assumption. reflexivity.
Qed.

(** C3, counterexample.  ["(-8)**0.5"] has a negative base and a
    fractional exponent.  The evaluator returns what the interpreter's
    [**] returns, and that is the complex number of the platform's complex
    power wherever this one is in range: so the evaluation does not fail
    on every platform. *)
Lemma C3_negative_base_returns_complex :
  let input :=
    BinOp (UnaryOp USub (Constant (CInt 8))) Pow (Constant (CFloat 0.5)) in
  Parser.parse "(-8)**0.5" = Some (Expression input)
  /\ (forall h c,
        complex_binop h Pow ((-8)%float, 0%float) (0.5%float, 0%float) = inl c ->
        visit h input = Return (VComplex c))
  /\ visit sample_host input
     = Return (VComplex (0x1.8f5a0be038ed7p-53%float, 0x1.6a09e667f3bcdp+1%float))
  /\ ~ (forall h, exists e, visit h input = Raise e).
Proof.
  cbv zeta. split; [reflexivity|]. split; [|split; [reflexivity|]].
  - intros h c Hc.
    change (visit h (BinOp (UnaryOp USub (Constant (CInt 8))) Pow
                       (Constant (CFloat 0.5))))
      with (complex_power h (-8) 0.5).
    unfold complex_power. rewrite Hc. reflexivity.
  - intros H. destruct (H sample_host) as (e & He). discriminate He.
Qed.

(** C3, amended.  When the left operand evaluates to a finite negative
    number and the right one to a float with a fractional part,
    [left ** right] is the interpreter's complex power: the evaluation
    returns the complex number the platform computes, and fails (with
    [OverflowError] or [ZeroDivisionError]) only where the platform
    reports an error. *)
Theorem visit_Pow_negative_base_fraction
    (h : host) (left right : expr) (l : value) (x y : float) :
  visit h left = Return l -> to_float l = Some x ->
  visit h right = Return (VFloat y) ->
  PrimFloat.ltb x 0 = true -> is_infinity x = false -> has_fraction y = true ->
  visit h (BinOp left Pow right)
  = match complex_binop h Pow (x, 0%float) (y, 0%float) with
    | inl c => Return (VComplex c)
    | inr EDOM => Raise ZeroDivisionError
    | inr ERANGE => Raise OverflowError
    end.
Proof.
  intros Hl Hx Hr Hlt Hinf Hy.
  change (visit h (BinOp left Pow right))
    with (visit_BinOp h (visit h) left Pow right).
  unfold visit_BinOp. rewrite Hl, Hr. simpl.
  apply (pow_negative_fraction h l x y); assumption.
Qed.

Lemma visit_Pow_negative_base_fraction_witness :
  (PrimFloat.ltb (-8) 0 = true /\ has_fraction 0.5 = true)
  /\ visit sample_host
       (BinOp (UnaryOp USub (Constant (CInt 8))) Pow (Constant (CFloat 0.5)))
     = Return (VComplex (0x1.8f5a0be038ed7p-53%float,
                         0x1.6a09e667f3bcdp+1%float)).
Proof.
  split; [split; reflexivity|].
  exact (visit_Pow_negative_base_fraction sample_host
           (UnaryOp USub (Constant (CInt 8))) (Constant (CFloat 0.5))
           (VInt (-8)) (-8)%float 0.5%float
           eq_refl eq_refl eq_refl eq_refl eq_refl eq_refl).
Defined.

(** ** C4: the depth of nesting *)

Lemma depth_nest n node : depth (nest n node) = (n + depth node)%nat.
Proof. induction n as [| n IH]; simpl; [reflexivity | rewrite IH; reflexivity]. Qed.

Lemma visit_UAdd h node :
  visit h (UnaryOp UAdd node) = v <- visit h node ;; pos v.
Proof. reflexivity. Qed.

Lemma visit_nest_int h n z :
  visit h (nest n (Constant (CInt z))) = Return (VInt z).
Proof.
  induction n as [| n IH]; [reflexivity|].
  change (nest (S n) (Constant (CInt z)))
    with (UnaryOp UAdd (nest n (Constant (CInt z)))).
  rewrite visit_UAdd, IH. reflexivity.
Qed.

Lemma agrees_bind a r k k' :
  agrees a r -> (forall x, agrees (k x) (k' x)) ->
  agrees (bind_limited a k) (bind r k').
Proof.
  intros [-> | ->] Hk; [left; reflexivity|].
  destruct r as [x | e]; simpl; [apply Hk | right; reflexivity].
Qed.

Lemma agrees_checked n f k r : agrees k r -> agrees (checked n f k) r.
Proof. unfold checked. destruct (f <? n)%nat; [left; reflexivity | tauto]. Qed.

Lemma agrees_call frames body r :
  (forall f, agrees (body f) r) -> agrees (call frames body) r.
Proof. destruct frames; simpl; [left; reflexivity | auto]. Qed.

Lemma agrees_guarded c cls frames dispatch r :
  (forall f, agrees (dispatch f) r) ->
  agrees (guarded c cls frames dispatch)
         (if negb (isinstance cls ALLOWED_NODES)
          then Raise (disallowed cls) else r).
Proof.
  intros H. unfold guarded. apply agrees_call. intros f1. apply agrees_checked.
  destruct (negb _); [right; reflexivity|].
  apply agrees_call. intros f2. apply agrees_call. exact H.
Qed.

Lemma agrees_each {A} (vf : A -> limited value) (v : A -> result value) l :
  Forall (fun x => agrees (vf x) (v x)) l ->
  agrees (visit_each_frames vf l) (visit_each v l).
Proof.
  induction 1 as [| x l Hx _ IH]; simpl; [right; reflexivity|].
  apply agrees_bind; [exact Hx | intros _; exact IH].
Qed.

Lemma agrees_context c ctx frames :
  agrees (visit_context_frames c ctx frames) (visit_context ctx).
Proof.
  unfold visit_context_frames, visit_context. apply agrees_guarded.
  intros f. apply agrees_checked. right. reflexivity.
Qed.

Ltac at_frames H :=
  let x := fresh "x" in let Hx := fresh "Hx" in
  eapply Forall_impl; [|exact H]; intros x Hx; apply Hx.

Lemma visit_frames_agrees h c node :
  forall frames, agrees (visit_frames h c node frames) (visit h node).
Proof.
  induction node
    as [op values H | l op r IHl IHr | op operand IH | t b o IHt IHb IHo
       | l ops cs IHl H | func args kws IHf Ha Hk | value | value a ctx IH
       | value slice ctx IHv IHs | value ctx IH | id ctx | elts ctx H
       | elts ctx H | arg value IH]
    using expr_nested_ind
    with (Q := fun kw => forall frames,
                 agrees (visit_keyword_frames h c kw frames)
                        (visit_keyword h kw));
    intros frames; cbn [visit_frames visit_keyword_frames class_name].
  - apply agrees_guarded with (r := visit_each (visit h) values).
    intros f. apply agrees_checked. apply agrees_each; at_frames H.
  - apply agrees_guarded with (r := visit_BinOp h (visit h) l op r).
    intros f. unfold visit_BinOp.
    apply agrees_bind; [apply IHl | intros a].
    apply agrees_bind; [apply IHr | intros b]. right. reflexivity.
  - apply agrees_guarded with (r := visit_UnaryOp (visit h) op operand).
    intros f. unfold visit_UnaryOp.
    apply agrees_bind; [apply IH | intros a]. right. reflexivity.
  - apply agrees_guarded
      with (r := _ <- visit h t ;; _ <- visit h b ;; _ <- visit h o ;;
                 Return VNone).
    intros f. apply agrees_checked.
    repeat (apply agrees_bind; [auto | intros _]). right. reflexivity.
  - apply agrees_guarded
      with (r := _ <- visit h l ;; visit_each (visit h) cs).
    intros f. apply agrees_checked.
    apply agrees_bind; [auto | intros _]. apply agrees_each; at_frames H.
  - apply agrees_guarded
      with (r := _ <- visit h func ;; _ <- visit_each (visit h) args ;;
                 _ <- visit_each (visit_keyword h) kws ;; Return VNone).
    intros f. apply agrees_checked.
    apply agrees_bind; [auto | intros _].
    apply agrees_bind; [apply agrees_each; at_frames Ha | intros _].
    apply agrees_bind; [apply agrees_each; at_frames Hk | intros _].
    right. reflexivity.
  - apply agrees_guarded with (r := visit_Constant value).
    intros f. apply agrees_checked. right. reflexivity.
  - apply agrees_guarded with (r := _ <- visit h value ;; visit_context ctx).
    intros f. apply agrees_checked.
    apply agrees_bind; [auto | intros _]. apply agrees_context.
  - apply agrees_guarded
      with (r := _ <- visit h value ;; _ <- visit h slice ;; visit_context ctx).
    intros f. apply agrees_checked.
    repeat (apply agrees_bind; [auto | intros _]). apply agrees_context.
  - apply agrees_guarded with (r := _ <- visit h value ;; visit_context ctx).
    intros f. apply agrees_checked.
    apply agrees_bind; [auto | intros _]. apply agrees_context.
  - apply agrees_guarded with (r := visit_context ctx).
    intros f. apply agrees_checked. apply agrees_context.
  - apply agrees_guarded
      with (r := _ <- visit_each (visit h) elts ;; visit_context ctx).
    intros f. apply agrees_checked.
    apply agrees_bind; [apply agrees_each; at_frames H | intros _].
    apply agrees_context.
  - apply agrees_guarded
      with (r := _ <- visit_each (visit h) elts ;; visit_context ctx).
    intros f. apply agrees_checked.
    apply agrees_bind; [apply agrees_each; at_frames H | intros _].
    apply agrees_context.
  - apply agrees_guarded with (r := _ <- visit h value ;; Return VNone).
    intros f. apply agrees_checked.
    apply agrees_bind; [auto | intros _]. right. reflexivity.
Qed.

Lemma bind_limited_Return {A B} (a : limited A) (k : A -> limited B) v :
  bind_limited a k = Within (Return v) ->
  exists x, a = Within (Return x) /\ k x = Within (Return v).
Proof.
  destruct a as [[x | e] |]; simpl; intros E; try discriminate E.
  exists x. split; [reflexivity | exact E].
Qed.

Lemma checked_Within {A} n f (k : limited A) r :
  checked n f k = Within r -> k = Within r /\ (n <= f)%nat.
Proof.
  unfold checked. destruct (Nat.ltb_spec f n); [discriminate|].
  intros E. split; [exact E | assumption].
Qed.

Lemma guarded_Return c cls frames dispatch v :
  guarded c cls frames dispatch = Within (Return v) ->
  isinstance cls ALLOWED_NODES = true
  /\ exists f, frames = S (S (S f)) /\ dispatch f = Within (Return v).
Proof.
  unfold guarded. destruct frames as [| f1]; [discriminate|]. cbn [call].
  intros E. apply checked_Within in E as (E & _).
  destruct (isinstance cls ALLOWED_NODES); cbn [negb] in E; [|discriminate E].
  split; [reflexivity|].
  destruct f1 as [| f2]; [discriminate|].
  destruct f2 as [| f3]; [discriminate|]. cbn [call] in E.
  exists f3. split; [reflexivity | exact E].
Qed.

Lemma visit_each_frames_Return {A} (vf : A -> limited value) l v :
  visit_each_frames vf l = Within (Return v) ->
  Forall (fun x => exists w, vf x = Within (Return w)) l.
Proof.
  induction l as [| x l IH]; simpl; intros E; [constructor|].
  apply bind_limited_Return in E as (w & Hx & E).
  constructor; [exists w; exact Hx | exact (IH E)].
Qed.

Lemma deepest_bound (l : list expr) (n : nat) :
  Forall (fun x => (3 * depth x <= n)%nat) l ->
  (3 * (fix deepest (l : list expr) : nat :=
          match l with
          | [] => O
          | x :: l' => Nat.max (depth x) (deepest l')
          end) l <= n)%nat.
Proof. induction 1 as [| x l Hx _ IH]; [lia | lia]. Qed.

Lemma deepest_kw_bound (l : list keyword) (n : nat) :
  Forall (fun kw => match kw with Keyword _ v => (3 * depth v <= n)%nat end) l ->
  (3 * (fix deepest_kw (l : list keyword) : nat :=
          match l with
          | [] => O
          | Keyword _ v :: l' => Nat.max (depth v) (deepest_kw l')
          end) l <= n)%nat.
Proof. induction 1 as [| [a v] l Hx _ IH]; [lia | lia]. Qed.

Ltac returned H :=
  repeat match type of H with
  | guarded _ _ _ _ = Within (Return _) =>
      let Hc := fresh "Hc" in let f := fresh "f" in
      apply guarded_Return in H as (Hc & f & -> & H);
      try discriminate Hc; clear Hc
  | checked _ _ _ = Within _ =>
      let Hn := fresh "Hn" in apply checked_Within in H as (H & Hn)
  | generic_visit _ _ = Within _ =>
      let Hn := fresh "Hn" in apply checked_Within in H as (H & Hn)
  end.

Lemma children_returned {A} (vf : A -> nat -> limited value)
    (P : A -> Prop) (size : A -> nat) l f :
  Forall (fun x => forall frames v,
            vf x frames = Within (Return v) -> (size x <= frames)%nat) l ->
  Forall (fun x => exists w, vf x f = Within (Return w)) l ->
  Forall (fun x => (size x <= f)%nat) l.
Proof.
  intros H1 H2. induction H1 as [| x l Hx _ IH]; [constructor|].
  inversion H2 as [| ? ? (w & Hw) H2']; subst.
  constructor; [exact (Hx _ _ Hw) | exact (IH H2')].
Qed.

Lemma visit_frames_Return h c node :
  forall frames v,
    visit_frames h c node frames = Within (Return v) ->
    (3 * depth node <= frames)%nat.
Proof.
  induction node
    as [op values H | l op r IHl IHr | op operand IH | t b o IHt IHb IHo
       | l ops cs IHl H | func args kws IHf Ha Hk | value | value a ctx IH
       | value slice ctx IHv IHs | value ctx IH | id ctx | elts ctx H
       | elts ctx H | arg value IH]
    using expr_nested_ind
    with (Q := fun kw => forall frames v,
                 visit_keyword_frames h c kw frames = Within (Return v) ->
                 match kw with
                 | Keyword _ value => (3 * depth value <= frames)%nat
                 end);
    intros frames v E; cbn [visit_frames visit_keyword_frames class_name] in E;
    returned E; cbn [depth].
  - (* BinOp *)
    apply bind_limited_Return in E as (a & Ea & E).
    apply bind_limited_Return in E as (b' & Eb & E).
    apply IHl in Ea. apply IHr in Eb. lia.
  - (* UnaryOp *)
    apply bind_limited_Return in E as (a & Ea & E).
    apply IH in Ea. lia.
  - (* Call *)
    apply bind_limited_Return in E as (a & Ea & E).
    apply bind_limited_Return in E as (b' & Eb & E).
    apply bind_limited_Return in E as (c' & Ec & E).
    apply IHf in Ea.
    apply visit_each_frames_Return in Eb, Ec.
    pose proof (deepest_bound args f
      (children_returned (visit_frames h c) (fun _ => True)
         (fun x => (3 * depth x)%nat) args f Ha Eb)) as Hargs.
    assert (Hkws : Forall (fun kw => match kw with
                                     | Keyword _ v => (3 * depth v <= f)%nat
                                     end) kws).
    { clear - Hk Ec. induction Hk as [| kw kws Hkw _ IHk]; [constructor|].
      inversion Ec as [| ? ? (w & Hw) Ec']; subst.
      constructor; [exact (Hkw _ _ Hw) | exact (IHk Ec')]. }
    apply deepest_kw_bound in Hkws. lia.
  - (* Constant *) lia.
  - (* Name *) lia.
  - (* Tuple *)
    apply bind_limited_Return in E as (a & Ea & E).
    apply visit_each_frames_Return in Ea.
    pose proof (deepest_bound elts f
      (children_returned (visit_frames h c) (fun _ => True)
         (fun x => (3 * depth x)%nat) elts f H Ea)) as Helts.
    lia.
Qed.

(** With frames to spare, the run within the limit is the run without. *)
Lemma checked_enough {A} n f (k : limited A) :
  (n <= f)%nat -> checked n f k = k.
Proof. unfold checked. intros H. destruct (Nat.ltb_spec f n); [lia | reflexivity]. Qed.

Lemma guarded_enough c cls frames dispatch :
  (3 + c <= frames)%nat ->
  guarded c cls frames dispatch
  = if negb (isinstance cls ALLOWED_NODES)
    then Within (Raise (disallowed cls))
    else dispatch (frames - 3)%nat.
Proof.
  intros H. unfold guarded.
  destruct frames as [| [| [| f]]]; try lia. cbn [call].
  rewrite checked_enough by lia.
  replace (S (S (S f)) - 3)%nat with f by lia. reflexivity.
Qed.

Lemma bind_limited_Within {A B} (a : limited A) r (k : A -> limited B) k' :
  a = Within r -> (forall x, k x = Within (k' x)) ->
  bind_limited a k = Within (bind r k').
Proof. intros -> Hk. destruct r; simpl; [apply Hk | reflexivity]. Qed.

Lemma visit_each_frames_Within {A} (vf : A -> limited value) v l :
  Forall (fun x => vf x = Within (v x)) l ->
  visit_each_frames vf l = Within (visit_each v l).
Proof.
  induction 1 as [| x l Hx _ IH]; simpl; [reflexivity|].
  apply bind_limited_Within; [exact Hx | intros _; exact IH].
Qed.

Lemma visit_context_frames_enough c ctx frames :
  (3 + Nat.max c 1 <= frames)%nat ->
  visit_context_frames c ctx frames = Within (visit_context ctx).
Proof.
  intros H. unfold visit_context_frames, visit_context, generic_visit.
  rewrite guarded_enough by lia. rewrite checked_enough by lia.
  destruct (negb _); reflexivity.
Qed.

Lemma deepest_Forall (l : list expr) (n : nat) :
  ((fix deepest (l : list expr) : nat :=
      match l with
      | [] => O
      | x :: l' => Nat.max (depth x) (deepest l')
      end) l <= n)%nat ->
  Forall (fun x => (depth x <= n)%nat) l.
Proof.
  induction l as [| x l IH]; intros H; constructor; [lia | apply IH; lia].
Qed.

Lemma children_enough {A} (vf : A -> nat -> limited value) v
    (size : A -> nat) (need : nat -> nat) l f n :
  Forall (fun x => forall frames,
            (need (size x) <= frames)%nat -> vf x frames = Within (v x)) l ->
  Forall (fun x => (size x <= n)%nat) l ->
  (forall a b, (a <= b)%nat -> (need a <= need b)%nat) ->
  (need n <= f)%nat ->
  Forall (fun x => vf x f = Within (v x)) l.
Proof.
  intros H1 H2 Hm Hf. induction H1 as [| x l Hx _ IH]; [constructor|].
  inversion H2 as [| ? ? Hs H2']; subst.
  constructor; [|exact (IH H2')].
  apply Hx. specialize (Hm _ _ Hs). lia.
Qed.

Lemma visit_frames_enough h c node :
  forall frames,
    (3 * depth node + 3 + Nat.max c 1 <= frames)%nat ->
    visit_frames h c node frames = Within (visit h node).
Proof.
  induction node
    as [op values H | l op r IHl IHr | op operand IH | t b o IHt IHb IHo
       | l ops cs IHl H | func args kws IHf Ha Hk | value | value a ctx IH
       | value slice ctx IHv IHs | value ctx IH | id ctx | elts ctx H
       | elts ctx H | arg value IH]
    using expr_nested_ind
    with (Q := fun kw => forall frames,
                 (3 + Nat.max c 1 <= frames)%nat ->
                 visit_keyword_frames h c kw frames
                 = Within (visit_keyword h kw));
    intros frames Hf; cbn [visit_frames visit_keyword_frames class_name];
    try cbn [depth] in Hf;
    rewrite guarded_enough by lia; try reflexivity;
    match goal with
    | |- context [negb (isinstance ?s ALLOWED_NODES)] =>
        let b := eval vm_compute in (negb (isinstance s ALLOWED_NODES)) in
        change (negb (isinstance s ALLOWED_NODES)) with b
    end; cbv iota;
    unfold generic_visit; rewrite ?checked_enough by lia.
  - (* BinOp *)
    change (visit h (BinOp l op r)) with (visit_BinOp h (visit h) l op r).
    unfold visit_BinOp.
    apply bind_limited_Within; [apply IHl; lia | intros x].
    apply bind_limited_Within; [apply IHr; lia | intros y]. reflexivity.
  - (* UnaryOp *)
    change (visit h (UnaryOp op operand))
      with (visit_UnaryOp (visit h) op operand).
    unfold visit_UnaryOp.
    apply bind_limited_Within; [apply IH; lia | intros x]. reflexivity.
  - (* Call *)
    change (visit h (Call func args kws))
      with (_ <- visit h func ;; _ <- visit_each (visit h) args ;;
            _ <- visit_each (visit_keyword h) kws ;; Return VNone).
    apply bind_limited_Within; [apply IHf; lia | intros _].
    apply bind_limited_Within; [| intros _].
    { apply visit_each_frames_Within.
      apply (children_enough (visit_frames h c) (visit h) depth
               (fun d => (3 * d + 3 + Nat.max c 1)%nat) args _
               (depth (Call func args kws) - 1) Ha).
      - apply deepest_Forall. cbn [depth]. lia.
      - intros; lia.
      - cbn [depth]. lia. }
    apply bind_limited_Within; [| intros _; reflexivity].
    apply visit_each_frames_Within.
    eapply Forall_impl; [|exact Hk]. intros kw Hkw. apply Hkw. lia.
  - (* Constant *)
    reflexivity.
  - (* Name *)
    change (visit h (Name id ctx)) with (visit_context ctx).
    apply visit_context_frames_enough. lia.
  - (* Tuple *)
    change (visit h (Tuple elts ctx))
      with (_ <- visit_each (visit h) elts ;; visit_context ctx).
    apply bind_limited_Within;
      [| intros _; apply visit_context_frames_enough; lia].
    apply visit_each_frames_Within.
    apply (children_enough (visit_frames h c) (visit h) depth
             (fun d => (3 * d + 3 + Nat.max c 1)%nat) elts _
             (depth (Tuple elts ctx) - 1) H).
    + apply deepest_Forall. cbn [depth]. lia.
    + intros; lia.
    + cbn [depth]. lia.
Qed.

(** C4, counterexample.  An expression of depth 101 evaluates to a
    number; and whatever the bound, deeper trees fail with different
    errors, raised by a shallow operand before the deep one is visited:
    no bound makes every deeper input fail with one depth error.  The
    same holds on the interpreter's stack, where a deep tree by itself
    fails with [RecursionError] and one with a division by zero to its
    left with [ZeroDivisionError]. *)
Lemma C4_no_depth_bound :
  (depth (nest 100 (Constant (CInt 1))) = 101%nat
   /\ forall h, visit h (nest 100 (Constant (CInt 1))) = Return (VInt 1))
  /\ ~ (exists (max_depth : nat) (too_deeply_nested : exn),
          forall h node, (max_depth < depth node)%nat ->
                         visit h node = Raise too_deeply_nested)
  /\ (forall h isinstance_depth frames,
        (13 + isinstance_depth <= frames)%nat ->
        ~ (exists (max_depth : nat) (too_deeply_nested : limited value),
             forall node, (max_depth < depth node)%nat ->
                          visit_frames h isinstance_depth node frames
                          = too_deeply_nested)).
Proof.
  split; [|split].
  - split; [reflexivity | intros h; apply visit_nest_int].
  - intros (n & e & H).
    pose (deep := nest n (Constant (CInt 1))).
    pose (zero_division :=
            BinOp (Constant (CInt 1)) Div (Constant (CInt 0))).
    assert (D : forall l, (n < depth (BinOp l Add deep))%nat).
    { intros l. simpl. unfold deep. rewrite depth_nest. simpl. lia. }
    pose proof (H sample_host _ (D zero_division)) as H1.
    pose proof (H sample_host _ (D (Name "x" Load))) as H2.
    change (visit sample_host (BinOp zero_division Add deep))
      with (visit_BinOp sample_host (visit sample_host)
              zero_division Add deep) in H1.
    change (visit sample_host (BinOp (Name "x" Load) Add deep))
      with (visit_BinOp sample_host (visit sample_host)
              (Name "x" Load) Add deep) in H2.
    unfold visit_BinOp in H1, H2.
    change (visit sample_host zero_division)
      with (@Raise value ZeroDivisionError) in H1.
    change (visit sample_host (Name "x" Load))
      with (Return VNone) in H2.
    unfold deep in H2. rewrite visit_nest_int in H2.
    change (add sample_host VNone (VInt 1))
      with (@Raise value TypeError) in H2.
    assert (E : @Raise value ZeroDivisionError = Raise TypeError)
      by (etransitivity; [exact H1 | symmetry; exact H2]).
    discriminate E.
  - intros h c frames Hf (n & e & H).
    pose (deep := nest (n + frames) (Constant (CInt 1))).
    pose (zero_division :=
            BinOp (Constant (CInt 1)) Div (Constant (CInt 0))).
    assert (Dd : depth deep = S (n + frames)).
    { unfold deep. rewrite depth_nest. cbn [depth]. lia. }
    assert (H1 : visit_frames h c deep frames = RecursionError).
    { destruct (visit_frames_agrees h c deep frames) as [E | E]; [exact E|].
      unfold deep in E. rewrite visit_nest_int in E.
      apply visit_frames_Return in E. fold deep in E. lia. }
    assert (H2 : visit_frames h c (BinOp zero_division Add deep) frames
                 = Within (Raise ZeroDivisionError)).
    { cbn [visit_frames class_name]. rewrite guarded_enough by lia.
      change (negb (isinstance "BinOp" ALLOWED_NODES)) with false. cbv iota.
      rewrite (visit_frames_enough h c zero_division)
        by (cbn [depth zero_division Nat.max]; lia).
      reflexivity. }
    rewrite (H deep) in H1 by lia.
    rewrite (H (BinOp zero_division Add deep)) in H2
      by (cbn [depth]; lia).
    rewrite H1 in H2. discriminate H2.
Qed.

Lemma visit_mod_frames_eq h c body frames :
  visit_mod_frames h c (Expression body) frames
  = guarded c "Expression" frames (visit_frames h c body).
Proof. reflexivity. Qed.

(** C4, amended.  The program sets no bound on the depth of nesting; the
    bound that holds is the interpreter's recursion limit, and the error
    is its [RecursionError].  A visit with [frames] frames left either
    exceeds the limit or ends as the visit without a limit does.  It uses
    three frames for a level of the tree: with fewer than three times
    the depth it returns no value, and fails with [RecursionError] on
    every tree that has a value; with three more levels' worth and what
    the calls into the interpreter need, it is the visit without a limit.
    The same holds of the visit of the [Expression] that [safe_eval]
    starts, one level above.  An expression of depth 101 has its value
    with 400 frames left and fails with [RecursionError] with 300. *)
Theorem visit_frames_depth_bound
    (h : host) (isinstance_depth : nat) (node : expr) (frames : nat) :
  (visit_frames h isinstance_depth node frames = RecursionError
   \/ visit_frames h isinstance_depth node frames = Within (visit h node))
  /\ ((frames < 3 * depth node)%nat ->
      (forall v, visit_frames h isinstance_depth node frames
                 <> Within (Return v))
      /\ (forall v, visit h node = Return v ->
                    visit_frames h isinstance_depth node frames
                    = RecursionError))
  /\ ((3 * depth node + 3 + Nat.max isinstance_depth 1 <= frames)%nat ->
      visit_frames h isinstance_depth node frames = Within (visit h node))
  /\ ((frames < 3 * S (depth node))%nat ->
      forall v, visit_mod_frames h isinstance_depth (Expression node) frames
                <> Within (Return v))
  /\ ((3 * S (depth node) + 3 + Nat.max isinstance_depth 1 <= frames)%nat ->
      visit_mod_frames h isinstance_depth (Expression node) frames
      = Within (visit_mod h (Expression node)))
  /\ depth (nest 100 (Constant (CInt 1))) = 101%nat
  /\ visit_mod_frames h 1 (Expression (nest 100 (Constant (CInt 1)))) 400
     = Within (Return (VInt 1))
  /\ visit_mod_frames h 1 (Expression (nest 100 (Constant (CInt 1)))) 300
     = RecursionError.
Proof.
  pose proof (visit_frames_agrees h isinstance_depth node frames) as Ha.
  split; [exact Ha|].
  split.
  { intros Hf.
    assert (Hv : forall v, visit_frames h isinstance_depth node frames
                           <> Within (Return v)).
    { intros v E. apply visit_frames_Return in E. lia. }
    split; [exact Hv|].
    intros v E. destruct Ha as [Ha | Ha]; [exact Ha|].
    rewrite E in Ha. destruct (Hv v Ha). }
  split; [apply visit_frames_enough|].
  split.
  { intros Hf v E. rewrite visit_mod_frames_eq in E.
    apply guarded_Return in E as (_ & f & -> & E).
    apply visit_frames_Return in E. lia. }
  split.
  { intros Hf. rewrite visit_mod_frames_eq, guarded_enough by lia.
    apply visit_frames_enough. lia. }
  split; [reflexivity|].
  split.
  - rewrite visit_mod_frames_eq, guarded_enough by lia.
    change (if negb (isinstance "Expression" ALLOWED_NODES)
            then Within (Raise (disallowed "Expression"))
            else visit_frames h 1 (nest 100 (Constant (CInt 1))) (400 - 3))
      with (visit_frames h 1 (nest 100 (Constant (CInt 1))) 397).
    rewrite visit_frames_enough, visit_nest_int; [reflexivity|].
    rewrite depth_nest. cbn [depth]. lia.
  - destruct (visit_frames_agrees h 1 (nest 100 (Constant (CInt 1))) 297)
      as [E | E].
    + rewrite visit_mod_frames_eq.
      change (guarded 1 "Expression" 300
                (visit_frames h 1 (nest 100 (Constant (CInt 1)))))
        with (visit_frames h 1 (nest 100 (Constant (CInt 1))) 297).
      exact E.
    + rewrite visit_nest_int in E. apply visit_frames_Return in E.
      rewrite depth_nest in E. cbn [depth] in E. lia.
Qed.

Lemma visit_frames_depth_bound_witness :
  visit_frames sample_host 1 (nest 100 (Constant (CInt 1))) 300
  = RecursionError.
Proof.
  destruct (visit_frames_depth_bound sample_host 1
              (nest 100 (Constant (CInt 1))) 300) as (_ & H & _).
  destruct H as (_ & H); [apply Nat.ltb_lt; reflexivity|].
  apply (H (VInt 1)). reflexivity.
Defined.

(** ** C5: precedence and associativity *)

Lemma safe_eval_parsed h ast_parse expr body :
  strip expr <> EmptyString -> ast_parse (strip expr) = Some (Expression body) ->
  safe_eval h ast_parse expr = visit h body.
Proof.
  intros NE Hp. unfold safe_eval.
  destruct (String.eqb_spec (strip expr) EmptyString) as [E | _]; [contradiction|].
  rewrite Hp. reflexivity.
Qed.

Section ReadingProofs.

Import Parser.

(** One step of each rule of the grammar. *)
Lemma sum_eq f ts :
  sum (S f) ts
  = match term f ts with
    | Some (e, ts') => sum_rest f e ts'
    | None => None
    end.
Proof. reflexivity. Qed.

Lemma sum_rest_eq f acc ts :
  sum_rest (S f) acc ts
  = let continue (op : operator) (ts' : list token) :=
      match term f ts' with
      | Some (r, ts'') => sum_rest f (BinOp acc op r) ts''
      | None => None
      end in
    match ts with
    | PLUS :: ts' => continue Add ts'
    | MINUS :: ts' => continue Sub ts'
    | _ => Some (acc, ts)
    end.
Proof. reflexivity. Qed.

Lemma term_eq f ts :
  term (S f) ts
  = match factor f ts with
    | Some (e, ts') => term_rest f e ts'
    | None => None
    end.
Proof. reflexivity. Qed.

Lemma term_rest_eq f acc ts :
  term_rest (S f) acc ts
  = let continue (op : operator) (ts' : list token) :=
      match factor f ts' with
      | Some (r, ts'') => term_rest f (BinOp acc op r) ts''
      | None => None
      end in
    match ts with
    | STAR :: ts' => continue Mult ts'
    | SLASH :: ts' => continue Div ts'
    | DOUBLESLASH :: ts' => continue FloorDiv ts'
    | PERCENT :: ts' => continue Mod ts'
    | _ => Some (acc, ts)
    end.
Proof. reflexivity. Qed.

Lemma factor_eq f ts :
  factor (S f) ts
  = let unary (op : unaryop) (ts' : list token) :=
      match factor f ts' with
      | Some (e, ts'') => Some (UnaryOp op e, ts'')
      | None => None
      end in
    match ts with
    | PLUS :: ts' => unary UAdd ts'
    | MINUS :: ts' => unary USub ts'
    | TILDE :: ts' => unary Invert ts'
    | _ => power f ts
    end.
Proof. reflexivity. Qed.

Lemma power_eq f ts :
  power (S f) ts
  = match primary f ts with
    | Some (base, DOUBLESTAR :: ts') =>
        match factor f ts' with
        | Some (e, ts'') => Some (BinOp base Pow e, ts'')
        | None => None
        end
    | other => other
    end.
Proof. reflexivity. Qed.

Lemma primary_eq f ts :
  primary (S f) ts
  = match atom f ts with
    | Some (e, ts') => primary_rest f e ts'
    | None => None
    end.
Proof. reflexivity. Qed.

Lemma primary_rest_eq f acc ts :
  primary_rest (S f) acc ts
  = match ts with
    | LPAR :: ts' =>
        match items f ts' with
        | Some (args, ts'') => primary_rest f (Call acc args []) ts''
        | None => None
        end
    | DOT :: NAME attr :: ts' => primary_rest f (Attribute acc attr Load) ts'
    | DOT :: _ => None
    | _ => Some (acc, ts)
    end.
Proof. reflexivity. Qed.

Lemma atom_eq f ts :
  atom (S f) ts
  = match ts with
    | NUMBER c :: ts' => Some (Constant c, ts')
    | NAME id :: ts' => Some (Name id Load, ts')
    | LPAR :: RPAR :: ts' => Some (Tuple [] Load, ts')
    | LPAR :: ts' =>
        match sum f ts' with
        | Some (e, RPAR :: ts'') => Some (e, ts'')
        | Some (e, COMMA :: ts'') =>
            match items f ts'' with
            | Some (es, ts''') => Some (Tuple (e :: es) Load, ts''')
            | None => None
            end
        | _ => None
        end
    | _ => None
    end.
Proof. reflexivity. Qed.

Lemma items_eq f ts :
  items (S f) ts
  = match ts with
    | RPAR :: ts' => Some ([], ts')
    | _ =>
        match sum f ts with
        | Some (e, RPAR :: ts') => Some ([e], ts')
        | Some (e, COMMA :: ts') =>
            match items f ts' with
            | Some (es, ts'') => Some (e :: es, ts'')
            | None => None
            end
        | _ => None
        end
    end.
Proof. reflexivity. Qed.

Lemma rules_stable f :
  stable sum f /\ stable2 sum_rest f /\ stable term f /\ stable2 term_rest f
  /\ stable factor f /\ stable power f /\ stable primary f
  /\ stable2 primary_rest f /\ stable atom f /\ stable items f.
Proof.
  induction f as [| f (Hsum & Hsum_rest & Hterm & Hterm_rest & Hfactor
                        & Hpower & Hprimary & Hprimary_rest & Hatom & Hitems)].
  { repeat split; intros ?; intros; discriminate. }
  repeat split.
  - intros ts r. rewrite (sum_eq (S f)), (sum_eq f).
    destruct (term f ts) as [[e ts'] |] eqn:E; [|discriminate].
    rewrite (Hterm _ _ E). apply Hsum_rest.
  - intros acc ts r. rewrite (sum_rest_eq (S f)), (sum_rest_eq f). cbv zeta.
    destruct ts as [| [] ts']; try (intros H; exact H);
      (destruct (term f ts') as [[e ts''] |] eqn:E; [|discriminate];
       rewrite (Hterm _ _ E); apply Hsum_rest).
  - intros ts r. rewrite (term_eq (S f)), (term_eq f).
    destruct (factor f ts) as [[e ts'] |] eqn:E; [|discriminate].
    rewrite (Hfactor _ _ E). apply Hterm_rest.
  - intros acc ts r. rewrite (term_rest_eq (S f)), (term_rest_eq f). cbv zeta.
    destruct ts as [| [] ts']; try (intros H; exact H);
      (destruct (factor f ts') as [[e ts''] |] eqn:E; [|discriminate];
       rewrite (Hfactor _ _ E); apply Hterm_rest).
  - intros ts r. rewrite (factor_eq (S f)), (factor_eq f). cbv zeta.
    destruct ts as [| [] ts']; try apply Hpower;
      (destruct (factor f ts') as [[e ts''] |] eqn:E; [|discriminate];
       rewrite (Hfactor _ _ E); intros H; exact H).
  - intros ts r. rewrite (power_eq (S f)), (power_eq f).
    destruct (primary f ts) as [[base ts'] |] eqn:E; [|discriminate].
    rewrite (Hprimary _ _ E).
    destruct ts' as [| [] ts'']; try (intros H; exact H).
    destruct (factor f ts'') as [[e ts3] |] eqn:E'; [|discriminate].
    rewrite (Hfactor _ _ E'). intros H; exact H.
  - intros ts r. rewrite (primary_eq (S f)), (primary_eq f).
    destruct (atom f ts) as [[e ts'] |] eqn:E; [|discriminate].
    rewrite (Hatom _ _ E). apply Hprimary_rest.
  - intros acc ts r. rewrite (primary_rest_eq (S f)), (primary_rest_eq f).
    destruct ts as [| [] ts']; try (intros H; exact H).
    + destruct (items f ts') as [[args ts''] |] eqn:E; [|discriminate].
      rewrite (Hitems _ _ E). apply Hprimary_rest.
    + destruct ts' as [| [] ts'']; try (intros H; exact H).
      apply Hprimary_rest.
  - intros ts r. rewrite (atom_eq (S f)), (atom_eq f).
    destruct ts as [| [] ts']; try (intros H; exact H).
    assert (Hs : forall ts0,
                 match sum f ts0 with
                 | Some (e, RPAR :: ts3) => Some (e, ts3)
                 | Some (e, COMMA :: ts3) =>
                     match items f ts3 with
                     | Some (es, ts4) => Some (Tuple (e :: es) Load, ts4)
                     | None => None
                     end
                 | _ => None
                 end = Some r ->
                 match sum (S f) ts0 with
                 | Some (e, RPAR :: ts3) => Some (e, ts3)
                 | Some (e, COMMA :: ts3) =>
                     match items (S f) ts3 with
                     | Some (es, ts4) => Some (Tuple (e :: es) Load, ts4)
                     | None => None
                     end
                 | _ => None
                 end = Some r).
    { intros ts0.
      destruct (sum f ts0) as [[e ts3] |] eqn:E; [|discriminate].
      rewrite (Hsum _ _ E).
      destruct ts3 as [| [] ts4]; try (intros H; exact H).
      destruct (items f ts4) as [[es ts5] |] eqn:E'; [|discriminate].
      rewrite (Hitems _ _ E'). intros H; exact H. }
    destruct ts' as [| t ts'']; [apply Hs|].
    destruct t; try apply Hs. intros H; exact H.
  - intros ts r. rewrite (items_eq (S f)), (items_eq f).
    assert (Hs : match sum f ts with
                 | Some (e, RPAR :: ts') => Some ([e], ts')
                 | Some (e, COMMA :: ts') =>
                     match items f ts' with
                     | Some (es, ts'') => Some (e :: es, ts'')
                     | None => None
                     end
                 | _ => None
                 end = Some r ->
                 match sum (S f) ts with
                 | Some (e, RPAR :: ts') => Some ([e], ts')
                 | Some (e, COMMA :: ts') =>
                     match items (S f) ts' with
                     | Some (es, ts'') => Some (e :: es, ts'')
                     | None => None
                     end
                 | _ => None
                 end = Some r).
    { destruct (sum f ts) as [[e ts3] |] eqn:E; [|discriminate].
      rewrite (Hsum _ _ E).
      destruct ts3 as [| [] ts4]; try (intros H; exact H).
      destruct (items f ts4) as [[es ts5] |] eqn:E'; [|discriminate].
      rewrite (Hitems _ _ E'). intros H; exact H. }
    destruct ts as [| [] ts']; try exact Hs. intros H; exact H.
Qed.

Lemma stable2_le {A B C} (rule : nat -> A -> B -> option C) :
  (forall f, stable2 rule f) ->
  forall f f' x y r,
    (f <= f')%nat -> rule f x y = Some r -> rule f' x y = Some r.
Proof.
  intros H f f' x y r Hle E. induction Hle as [| f' _ IH]; [exact E|].
  apply H, IH.
Qed.

Lemma sum_rest_le f f' acc ts r :
  (f <= f')%nat -> sum_rest f acc ts = Some r -> sum_rest f' acc ts = Some r.
Proof.
  apply (stable2_le sum_rest). intros n. apply (rules_stable n).
Qed.

Lemma term_rest_le f f' acc ts r :
  (f <= f')%nat -> term_rest f acc ts = Some r -> term_rest f' acc ts = Some r.
Proof.
  apply (stable2_le term_rest). intros n. apply (rules_stable n).
Qed.

Lemma reads_number c : primary_reads [NUMBER c] (Constant c) 2.
Proof.
  intros rest f Hs Hf. destruct f as [| [| f]]; try lia.
  rewrite primary_eq, atom_eq. cbn [app]. rewrite primary_rest_eq.
  destruct rest as [| [] rest']; try reflexivity; discriminate Hs.
Qed.

Lemma factor_of_primary ts t n :
  opens_atom ts = true -> primary_reads ts t n ->
  factor_reads ts t (n + 2).
Proof.
  intros Ho H rest f Hs Hf. destruct f as [| [| f]]; try lia.
  rewrite factor_eq. cbv zeta.
  assert (E : power (S f) (ts ++ rest) = Some (t, rest)).
  { rewrite power_eq, (H rest f); [|destruct rest as [| [] ?]; try reflexivity; discriminate Hs|lia].
    destruct rest as [| [] rest']; try reflexivity; discriminate Hs. }
  destruct ts as [| [] ts']; try discriminate Ho; exact E.
Qed.

Lemma reads_unary op tok ts t n :
  (op, tok) = (UAdd, PLUS) \/ (op, tok) = (USub, MINUS)
  \/ (op, tok) = (Invert, TILDE) ->
  factor_reads ts t n -> factor_reads (tok :: ts) (UnaryOp op t) (n + 1).
Proof.
  intros Hop H rest f Hs Hf. destruct f as [| f]; try lia.
  rewrite factor_eq. cbv zeta.
  destruct Hop as [E | [E | E]]; injection E as -> ->; cbn [app];
    rewrite (H rest f Hs) by lia; reflexivity.
Qed.

Lemma reads_power tl l nl tr r nr :
  primary_reads tl l nl -> factor_reads tr r nr -> opens_atom tl = true ->
  factor_reads (tl ++ DOUBLESTAR :: tr) (BinOp l Pow r) (Nat.max nl nr + 2).
Proof.
  intros Hl Hr Ho rest f Hs Hf. destruct f as [| [| f]]; try lia.
  rewrite factor_eq. cbv zeta.
  assert (E : power (S f) ((tl ++ DOUBLESTAR :: tr) ++ rest)
              = Some (BinOp l Pow r, rest)).
  { rewrite power_eq, <- app_assoc. cbn [app].
    rewrite (Hl (DOUBLESTAR :: tr ++ rest) f) by (reflexivity || lia).
    rewrite (Hr rest f Hs) by lia. reflexivity. }
  destruct tl as [| [] tl']; try discriminate Ho; exact E.
Qed.

Lemma term_of_factor ts t n : factor_reads ts t n -> term_reads ts t (n + 1).
Proof.
  intros H rest f res Hs E f' Hf. destruct f' as [| f']; try lia.
  rewrite term_eq, (H rest f') by (assumption || lia).
  apply (term_rest_le f); [lia | exact E].
Qed.

Lemma reads_term op tok tl l nl tr r nr :
  (op, tok) = (Mult, STAR) \/ (op, tok) = (Div, SLASH)
  \/ (op, tok) = (FloorDiv, DOUBLESLASH) \/ (op, tok) = (Mod, PERCENT) ->
  term_reads tl l nl -> factor_reads tr r nr ->
  term_reads (tl ++ tok :: tr) (BinOp l op r) (nl + nr + 1).
Proof.
  intros Hop Hl Hr rest f res Hs E f' Hf.
  rewrite <- app_assoc. cbn [app].
  apply (Hl (tok :: tr ++ rest) (S (f + nr)));
    [destruct Hop as [E' | [E' | [E' | E']]]; injection E' as -> ->; reflexivity
    | | lia].
  rewrite term_rest_eq. cbv zeta.
  assert (E2 : match factor (f + nr) (tr ++ rest) with
               | Some (r', ts'') => term_rest (f + nr) (BinOp l op r') ts''
               | None => None
               end = Some res).
  { rewrite (Hr rest (f + nr)%nat Hs) by lia.
    apply (term_rest_le f); [lia | exact E]. }
  destruct Hop as [E' | [E' | [E' | E']]]; injection E' as -> ->; exact E2.
Qed.

Lemma term_rest_stops f t rest :
  stops 0 rest = true -> term_rest (S f) t rest = Some (t, rest).
Proof.
  intros Hs. rewrite term_rest_eq. cbv zeta.
  destruct rest as [| [] rest']; try reflexivity; discriminate Hs.
Qed.

Lemma sum_of_term ts t n : term_reads ts t n -> sum_reads ts t (n + 2).
Proof.
  intros H rest f res Hs E f' Hf. destruct f' as [| f']; try lia.
  rewrite sum_eq.
  rewrite (H rest 1%nat (t, rest));
    [ apply (sum_rest_le f); [lia | exact E]
    | destruct rest as [| [] ?]; try reflexivity; discriminate Hs
    | apply term_rest_stops; exact Hs
    | lia ].
Qed.

Lemma reads_sum op tok tl l nl tr r nr :
  (op, tok) = (Add, PLUS) \/ (op, tok) = (Sub, MINUS) ->
  sum_reads tl l nl -> term_reads tr r nr ->
  sum_reads (tl ++ tok :: tr) (BinOp l op r) (nl + nr + 2).
Proof.
  intros Hop Hl Hr rest f res Hs E f' Hf.
  rewrite <- app_assoc. cbn [app].
  apply (Hl (tok :: tr ++ rest) (S (f + nr + 1)));
    [destruct Hop as [E' | E']; injection E' as -> ->; reflexivity
    | | lia].
  rewrite sum_rest_eq. cbv zeta.
  assert (E2 : match term (f + nr + 1) (tr ++ rest) with
               | Some (r', ts'') => sum_rest (f + nr + 1) (BinOp l op r') ts''
               | None => None
               end = Some res).
  { rewrite (Hr rest 1%nat (r, rest));
      [ apply (sum_rest_le f); [lia | exact E]
      | destruct rest as [| [] ?]; try reflexivity; discriminate Hs
      | apply term_rest_stops; exact Hs
      | lia ]. }
  destruct Hop as [E' | E']; injection E' as -> ->; exact E2.
Qed.

Lemma primary_of_sum ts t n :
  opens ts = true -> sum_reads ts t n ->
  primary_reads (LPAR :: ts ++ [RPAR]) t (n + 3).
Proof.
  intros Ho H rest f Hs Hf. destruct f as [| [| f]]; try lia.
  rewrite primary_eq, atom_eq. cbn [app]. rewrite <- app_assoc. cbn [app].
  assert (E : sum f (ts ++ RPAR :: rest) = Some (t, RPAR :: rest)).
  { apply (H (RPAR :: rest) 1%nat); [reflexivity | reflexivity | lia]. }
  assert (E2 : match sum f (ts ++ RPAR :: rest) with
               | Some (e, RPAR :: ts'') => Some (e, ts'')
               | Some (e, COMMA :: ts'') =>
                   match items f ts'' with
                   | Some (es, ts''') => Some (Tuple (e :: es) Load, ts''')
                   | None => None
                   end
               | _ => None
               end = Some (t, rest)).
  { rewrite E. reflexivity. }
  destruct ts as [| [] ts']; try discriminate Ho; cbn [app] in *;
    rewrite E2, primary_rest_eq;
    destruct rest as [| [] rest']; try reflexivity; discriminate Hs.
Qed.

Lemma reads_weaken p ts t n n' :
  (n <= n')%nat -> reads p ts t n -> reads p ts t n'.
Proof.
  intros Hn. destruct p as [| [| [| p]]]; cbn [reads]; intros H.
  - intros rest f res Hs E f' Hf. apply (H rest f res Hs E). lia.
  - intros rest f res Hs E f' Hf. apply (H rest f res Hs E). lia.
  - intros rest f Hs Hf. apply (H rest f Hs). lia.
  - intros rest f Hs Hf. apply (H rest f Hs). lia.
Qed.

Lemma reads_down q p ts t :
  (1 <= List.length ts)%nat -> (p <= q <= 3)%nat ->
  (q = 3%nat -> opens_atom ts = true) ->
  reads q ts t (budget q (List.length ts)) ->
  reads p ts t (budget p (List.length ts)).
Proof.
  intros Hlen [Hpq Hq] Ho H.
  assert (H2 : (2 <= q)%nat -> reads 2 ts t (budget 2 (List.length ts))).
  { intros Hq2. assert (Hq' : q = 2%nat \/ q = 3%nat) by lia.
    destruct Hq' as [-> | ->]; [exact H|].
    apply (reads_weaken 2 _ _ (budget 3 (List.length ts) + 2));
      [cbn [budget]; lia|].
    apply factor_of_primary; [apply Ho; reflexivity | exact H]. }
  assert (H1 : (1 <= q)%nat -> reads 1 ts t (budget 1 (List.length ts))).
  { intros Hq1. destruct (Nat.eq_dec q 1) as [-> | Hne]; [exact H|].
    apply (reads_weaken 1 _ _ (budget 2 (List.length ts) + 1));
      [cbn [budget]; lia|].
    apply term_of_factor, H2. lia. }
  assert (H0 : reads 0 ts t (budget 0 (List.length ts))).
  { destruct (Nat.eq_dec q 0) as [-> | Hne]; [exact H|].
    apply (reads_weaken 0 _ _ (budget 1 (List.length ts) + 2));
      [cbn [budget]; lia|].
    apply sum_of_term, H1. lia. }
  destruct p as [| [| [| p]]]; [exact H0 | apply H1; lia | apply H2; lia|].
  assert (q = 3%nat) by lia. subst q.
  assert (p = 0%nat) by lia. subst p. exact H.
Qed.

Lemma toks_level p e :
  (p <= 3)%nat ->
  toks p e = if (level e <? p)%nat then LPAR :: toks 0 e ++ [RPAR]
             else toks 0 e.
Proof.
  intros Hp. unfold toks. destruct e as [n | op x | l op r]; cbn [lexemes level].
  - destruct (Nat.ltb_spec 3 p); [lia | reflexivity].
  - destruct (2 <? p)%nat; cbn [bracket Nat.ltb Nat.leb]; [|reflexivity].
    cbn [map snd]. rewrite map_app. reflexivity.
  - replace (precedence op <? 0)%nat with false
      by (symmetry; apply Nat.ltb_ge; lia).
    destruct (precedence op <? p)%nat; cbn [bracket]; [|reflexivity].
    cbn [map snd]. rewrite map_app. reflexivity.
Qed.

Lemma toks_Unary op x :
  toks 0 (Unary op x) = snd (unary_lexeme op) :: toks 2 x.
Proof. reflexivity. Qed.

Lemma toks_Binary l op r :
  toks 0 (Binary l op r)
  = toks (left_level op) l ++ snd (operator_lexeme op) :: toks (right_level op) r.
Proof.
  unfold toks. cbn [lexemes].
  replace (precedence op <? 0)%nat with false
    by (symmetry; apply Nat.ltb_ge; lia).
  cbn [bracket]. rewrite map_app. reflexivity.
Qed.

Lemma opens_app ts rest : opens ts = true -> opens (ts ++ rest) = opens ts.
Proof. destruct ts; [discriminate | reflexivity]. Qed.

Lemma opens_toks e :
  well_written e = true ->
  forall p, (p <= 3)%nat ->
    opens (toks p e) = true
    /\ ((level e < p)%nat \/ level e = 3%nat \/ (exists l r, e = Binary l Pow r) ->
        opens_atom (toks p e) = true).
Proof.
  induction e as [n | op x IH | l IHl op r IHr]; intros Hw p Hp;
    rewrite toks_level by exact Hp.
  - cbn [level]. destruct (Nat.ltb_spec 3 p); [lia|]. split; reflexivity.
  - cbn [level]. destruct (Nat.ltb_spec 2 p) as [H | H].
    + split; reflexivity.
    + split.
      * rewrite toks_Unary. destruct op; try discriminate Hw; reflexivity.
      * intros [H' | [H' | (l & r & H')]]; [lia | discriminate | discriminate].
  - cbn [level well_written] in *.
    apply andb_true_iff in Hw as (Hw & Hwr).
    apply andb_true_iff in Hw as (Hop & Hwl).
    destruct (Nat.ltb_spec (precedence op) p) as [H | H].
    + split; reflexivity.
    + rewrite toks_Binary.
      assert (Hll : (left_level op <= 3)%nat) by (destruct op; cbn; lia).
      destruct (IHl Hwl (left_level op) Hll) as (Ho & Ha).
      split.
      * rewrite opens_app; assumption.
      * intros [H' | [H' | (l' & r' & H')]]; try lia.
        -- destruct op; discriminate H'.
        -- injection H' as _ -> _.
           assert (Hx : opens_atom (toks 3 l) = true).
           { apply Ha. cbn [left_level].
             destruct l as [? | ? ? | ? o ?]; cbn [level];
               [right; left; reflexivity | left; lia
               | left; destruct o; cbn; lia]. }
           cbn [left_level]. destruct (toks 3 l) as [| [] ?];
             try discriminate Hx; reflexivity.
Qed.

Lemma toks_length p e : (1 <= List.length (toks p e))%nat.
Proof.
  unfold toks. rewrite length_map.
  destruct e as [n | op x | l op r]; cbn [lexemes].
  - cbn. lia.
  - destruct (2 <? p)%nat; cbn [bracket]; cbn [List.length]; lia.
  - destruct (precedence op <? p)%nat; cbn [bracket]; cbn [List.length];
      rewrite ?length_app; cbn [List.length]; lia.
Qed.

Lemma reads_any e :
  well_written e = true ->
  reads (level e) (toks 0 e) (tree e)
    (budget (level e) (List.length (toks 0 e))) ->
  forall p, (p <= 3)%nat ->
    reads p (toks p e) (tree e) (budget p (List.length (toks p e))).
Proof.
  intros Hw H p Hp.
  assert (Hl : (level e <= 3)%nat)
    by (destruct e as [| | ? [] ?]; cbn; lia).
  pose proof (toks_length 0 e) as Hlen.
  destruct (opens_toks e Hw 0 (Nat.le_0_l 3)) as (Ho & Ha).
  rewrite toks_level by exact Hp.
  destruct (Nat.ltb_spec (level e) p) as [Hlt | Hge].
  - apply (reads_down 3 p);
      [cbn [List.length]; lia | lia | reflexivity|].
    apply (reads_weaken 3 _ _ (budget 0 (List.length (toks 0 e)) + 3)).
    { cbn [budget List.length]. rewrite length_app. cbn [List.length]. lia. }
    apply primary_of_sum; [exact Ho|].
    apply (reads_down (level e) 0); [exact Hlen | lia | | exact H].
    intros E. apply Ha. right. left. exact E.
  - apply (reads_down (level e) p); [exact Hlen | lia | | exact H].
    intros E. apply Ha. right. left. exact E.
Qed.

Lemma reads_written e :
  well_written e = true ->
  forall p, (p <= 3)%nat ->
    reads p (toks p e) (tree e) (budget p (List.length (toks p e))).
Proof.
  induction e as [n | op x IH | l IHl op r IHr]; intros Hw;
    apply reads_any; try exact Hw.
  - apply reads_number.
  - cbn [well_written] in Hw. apply andb_true_iff in Hw as (Hop & Hx).
    cbn [level tree]. rewrite toks_Unary.
    apply (reads_weaken 2 _ _ (budget 2 (List.length (toks 2 x)) + 1));
      [cbn [budget List.length]; lia|].
    apply reads_unary; [|apply (IH Hx 2%nat); lia].
    destruct op; try discriminate Hop; cbn; tauto.
  - cbn [well_written] in Hw.
    apply andb_true_iff in Hw as (Hw & Hr).
    apply andb_true_iff in Hw as (Hop & Hl).
    assert (Hll : (left_level op <= 3)%nat) by (destruct op; cbn; lia).
    assert (Hrl : (right_level op <= 3)%nat) by (destruct op; cbn; lia).
    pose proof (IHl Hl _ Hll) as Rl. pose proof (IHr Hr _ Hrl) as Rr.
    pose proof (toks_length (left_level op) l) as Ll.
    pose proof (toks_length (right_level op) r) as Lr.
    cbn [level tree]. rewrite toks_Binary, length_app. cbn [List.length].
    destruct op; try discriminate Hop;
      cbn [precedence left_level right_level operator_lexeme snd] in *.
    + (* Add *)
      eapply reads_weaken; [|apply (reads_sum Add PLUS); [tauto | exact Rl | exact Rr]].
      cbn [budget]. lia.
    + (* Sub *)
      eapply reads_weaken; [|apply (reads_sum Sub MINUS); [tauto | exact Rl | exact Rr]].
      cbn [budget]. lia.
    + (* Mult *)
      eapply reads_weaken; [|apply (reads_term Mult STAR); [tauto | exact Rl | exact Rr]].
      cbn [budget]. lia.
    + (* Div *)
      eapply reads_weaken; [|apply (reads_term Div SLASH); [tauto | exact Rl | exact Rr]].
      cbn [budget]. lia.
    + (* Mod *)
      eapply reads_weaken; [|apply (reads_term Mod PERCENT); [tauto | exact Rl | exact Rr]].
      cbn [budget]. lia.
    + (* Pow *)
      eapply reads_weaken;
        [|apply reads_power; [exact Rl | exact Rr|]].
      * cbn [budget]. lia.
      * apply (opens_toks l Hl 3 (Nat.le_refl 3)).
        destruct l as [? | ? ? | ? o ?]; cbn [level];
          [right; left; reflexivity | left; lia | left; destruct o; cbn; lia].
    + (* FloorDiv *)
      eapply reads_weaken; [|apply (reads_term FloorDiv DOUBLESLASH); [tauto | exact Rl | exact Rr]].
      cbn [budget]. lia.
Qed.

(** The parser reads the tokens of a written expression as its tree. *)
Lemma expressions_written e fuel :
  well_written e = true ->
  (4 * List.length (toks 0 e) + 4 <= fuel)%nat ->
  expressions fuel (toks 0 e) = Some (tree e).
Proof.
  intros Hw Hf. unfold expressions.
  pose proof (reads_written e Hw 0 (Nat.le_0_l 3)) as H. cbn [reads budget] in H.
  specialize (H [] 1%nat (tree e, []) eq_refl eq_refl fuel).
  rewrite app_nil_r in H. rewrite H by lia. reflexivity.
Qed.

Lemma span_digits ds rest :
  forallb is_digit ds = true ->
  match rest with c :: _ => is_digit c = false | [] => True end ->
  span is_digit (ds ++ rest) = (ds, rest).
Proof.
  intros Hd Hr. induction ds as [| d ds IH]; cbn [app span].
  - destruct rest as [| c rest']; [reflexivity|]. cbn [span]. rewrite Hr.
    reflexivity.
  - cbn [forallb] in Hd. apply andb_true_iff in Hd as (-> & Hd).
    rewrite (IH Hd). reflexivity.
Qed.

Lemma delimits_digit rest :
  delimits rest = true ->
  match rest with c :: _ => is_digit c = false | [] => True end.
Proof.
  destruct rest as [| c rest']; [exact (fun _ => I)|]. cbn [delimits].
  unfold is_name_char. destruct (is_digit c); [|reflexivity].
  rewrite orb_true_r. discriminate.
Qed.

Lemma delimits_name rest :
  delimits rest = true -> followed_by_name_char rest = false.
Proof.
  destruct rest as [| c rest']; [reflexivity|]. cbn [delimits followed_by_name_char].
  destruct (is_name_char c); [discriminate | reflexivity].
Qed.

Lemma not_point {A} (rest : list ascii) (a : list ascii -> A) (b : A) :
  delimits rest = true ->
  match rest with
  | "."%char :: rest' => a rest'
  | _ => b
  end = b.
Proof.
  destruct rest as [| c rest']; [reflexivity|]. cbn [delimits].
  destruct c as [[] [] [] [] [] [] [] []]; try reflexivity.
  cbn. discriminate.
Qed.

Lemma number_token_Integer ds rest :
  well_written_literal (Integer ds) = true -> delimits rest = true ->
  number_token (ds ++ rest)
  = Some (NUMBER (CInt (digits_value ds)), rest).
Proof.
  intros Hw Hr. cbn [well_written_literal] in Hw.
  apply andb_true_iff in Hw as (Hw & _).
  apply andb_true_iff in Hw as (Hd & Hz).
  unfold number_token.
  rewrite (span_digits ds rest Hd (delimits_digit rest Hr)).
  rewrite not_point by exact Hr. rewrite (delimits_name rest Hr).
  destruct ds as [| d ds']; [discriminate Hz|].
  destruct ds' as [| d' ds'']; [destruct d as [[] [] [] [] [] [] [] []]; reflexivity|].
  destruct d as [[] [] [] [] [] [] [] []]; try reflexivity.
  discriminate Hz.
Qed.

Lemma number_token_Decimal whole fraction rest :
  well_written_literal (Decimal whole fraction) = true ->
  delimits rest = true ->
  number_token ((whole ++ "."%char :: fraction) ++ rest)
  = Some (NUMBER (CFloat (decimal_float (whole ++ fraction)
                            (List.length fraction))), rest).
Proof.
  intros Hw Hr. cbn [well_written_literal] in Hw.
  apply andb_true_iff in Hw as (Hw & _).
  apply andb_true_iff in Hw as (Hd & Hf).
  unfold number_token. rewrite <- app_assoc. cbn [app].
  rewrite (span_digits whole _ Hd) by reflexivity.
  rewrite (span_digits fraction rest Hf (delimits_digit rest Hr)).
  rewrite (delimits_name rest Hr). reflexivity.
Qed.

Lemma literal_text_digit n :
  well_written_literal n = true ->
  exists d s, literal_text n = d :: s /\ is_digit d = true.
Proof.
  destruct n as [ds | whole fraction]; cbn [well_written_literal literal_text];
    intros Hw.
  - apply andb_true_iff in Hw as (Hw & _).
    apply andb_true_iff in Hw as (Hd & Hz).
    destruct ds as [| d ds']; [discriminate Hz|]. exists d, ds'.
    cbn [forallb] in Hd. apply andb_true_iff in Hd as (Hd & _). tauto.
  - apply andb_true_iff in Hw as (Hw & Hz).
    apply andb_true_iff in Hw as (Hd & _).
    destruct whole as [| d ds']; [discriminate Hz|].
    exists d, (ds' ++ "."%char :: fraction).
    cbn [forallb] in Hd. apply andb_true_iff in Hd as (Hd & _).
    split; [reflexivity | exact Hd].
Qed.

Lemma number_token_literal n rest :
  well_written_literal n = true -> delimits rest = true ->
  number_token (literal_text n ++ rest)
  = Some (NUMBER (literal_constant n), rest).
Proof.
  destruct n as [ds | whole fraction]; intros Hw Hr.
  - apply number_token_Integer; assumption.
  - apply number_token_Decimal; assumption.
Qed.

Lemma tokenize_digit f d s :
  is_digit d = true ->
  tokenize (S f) (d :: s)
  = match number_token (d :: s) with
    | Some (t, rest) => option_map (cons t) (tokenize f rest)
    | None => None
    end.
Proof.
  intros Hd. cbn [tokenize].
  assert (Hb : is_blank d = false).
  { unfold is_digit, is_blank in *. apply andb_true_iff in Hd as (H1 & H2).
    apply Nat.leb_le in H1.
    repeat (apply orb_false_iff; split); apply Nat.eqb_neq; lia. }
  rewrite Hb, Hd. reflexivity.
Qed.

Lemma scans_number n :
  well_written_literal n = true ->
  scans [(literal_text n, NUMBER (literal_constant n))].
Proof.
  intros Hw rest f Hr. cbn [List.length map fst snd List.concat Nat.add].
  rewrite app_nil_r.
  destruct (literal_text_digit n Hw) as (d & s & E & Hd).
  pose proof (number_token_literal n rest Hw Hr) as Hn. rewrite E in *.
  cbn [app] in *. rewrite (tokenize_digit f d _ Hd), Hn.
  destruct (tokenize f rest); reflexivity.
Qed.

Lemma option_map_app {A} (a b : list A) (o : option (list A)) :
  option_map (app a) (option_map (app b) o) = option_map (app (a ++ b)) o.
Proof. destruct o; cbn; [rewrite app_assoc|]; reflexivity. Qed.

Lemma scans_app a b :
  scans a -> scans b ->
  delimits (List.concat (map fst b)) = true ->
  (List.concat (map fst b) <> []) ->
  scans (a ++ b).
Proof.
  unfold scans in *. intros Ha Hb Hd Hn rest f Hr.
  rewrite length_app, !map_app, concat_app, <- app_assoc, <- Nat.add_assoc.
  rewrite Ha.
  - etransitivity; [apply f_equal; exact (Hb rest f Hr) | apply option_map_app].
  - destruct (List.concat (map fst b)); [contradiction | exact Hd].
Qed.

Lemma scans_one text tok :
  (forall s f, begins s = true ->
     tokenize (S f) (text ++ s) = option_map (cons tok) (tokenize f s)) ->
  forall b, scans b -> begins (List.concat (map fst b)) = true ->
  scans ((text, tok) :: b).
Proof.
  unfold scans in *. intros H b Hb Hbeg rest f Hr.
  cbn [List.length map fst snd List.concat Nat.add]. rewrite <- app_assoc.
  rewrite H.
  - etransitivity; [apply f_equal; exact (Hb rest f Hr)|].
    destruct (tokenize f rest); reflexivity.
  - destruct (List.concat (map fst b)); [discriminate | exact Hbeg].
Qed.

Lemma tokenize_unary op s f :
  match op with Not => false | _ => true end = true ->
  tokenize (S f) (fst (unary_lexeme op) ++ s)
  = option_map (cons (snd (unary_lexeme op))) (tokenize f s).
Proof. destruct op; try discriminate; reflexivity. Qed.

Lemma tokenize_operator op s f :
  match op with
  | Add | Sub | Mult | Div | FloorDiv | Mod | Pow => true
  | _ => false
  end = true ->
  begins s = true ->
  tokenize (S f) (fst (operator_lexeme op) ++ s)
  = option_map (cons (snd (operator_lexeme op))) (tokenize f s).
Proof.
  intros Hop Hs. destruct op; try discriminate Hop; try reflexivity;
    destruct s as [| c s']; try discriminate Hs;
    destruct c as [[] [] [] [] [] [] [] []]; try reflexivity;
    discriminate Hs.
Qed.

Lemma chars_bracket b body :
  List.concat (map fst (bracket b body))
  = if b then "("%char :: List.concat (map fst body) ++ [")"%char]
    else List.concat (map fst body).
Proof.
  destruct b; cbn [bracket]; [|reflexivity].
  cbn [map fst List.concat app]. rewrite map_app, concat_app. reflexivity.
Qed.

Lemma begins_app s t : begins s = true -> begins (s ++ t) = true.
Proof. destruct s; [discriminate | exact (fun H => H)]. Qed.

Lemma begins_chars e :
  well_written e = true -> forall p, begins (chars p e) = true.
Proof.
  unfold chars.
  induction e as [n | op x IH | l IHl op r IHr]; intros Hw p; cbn [lexemes].
  - cbn [map fst List.concat]. rewrite app_nil_r.
    destruct (literal_text_digit n Hw) as (d & s & -> & Hd).
    cbn [begins]. rewrite Hd. reflexivity.
  - rewrite chars_bracket. destruct (2 <? p)%nat; [reflexivity|].
    cbn [well_written] in Hw. destruct op; try discriminate Hw; reflexivity.
  - rewrite chars_bracket. destruct (precedence op <? p)%nat; [reflexivity|].
    cbn [well_written] in Hw. apply andb_true_iff in Hw as (Hw & _).
    apply andb_true_iff in Hw as (_ & Hl).
    rewrite map_app, concat_app. apply begins_app, IHl, Hl.
Qed.

Lemma scans_bracket b body :
  scans body -> begins (List.concat (map fst body)) = true ->
  scans (bracket b body).
Proof.
  intros Hb Hbeg. destruct b; cbn [bracket]; [|exact Hb].
  apply (scans_one ["("%char] LPAR).
  - intros s f _. reflexivity.
  - apply scans_app; [exact Hb | | reflexivity | discriminate].
    intros rest f Hr. reflexivity.
  - rewrite map_app, concat_app. apply begins_app, Hbeg.
Qed.

Lemma scans_lexemes e :
  well_written e = true -> forall p, scans (lexemes p e).
Proof.
  induction e as [n | op x IH | l IHl op r IHr]; intros Hw p; cbn [lexemes].
  - apply scans_number, Hw.
  - cbn [well_written] in Hw. apply andb_true_iff in Hw as (Hop & Hx).
    assert (Hb : scans (unary_lexeme op :: lexemes 2 x)).
    { destruct (unary_lexeme op) as [text tok] eqn:E.
      apply scans_one; [| apply IH, Hx | apply (begins_chars x Hx)].
      intros s f _.
      pose proof (tokenize_unary op s f Hop) as H. rewrite E in H. exact H. }
    apply scans_bracket; [exact Hb|].
    destruct op; try discriminate Hop; reflexivity.
  - cbn [well_written] in Hw.
    apply andb_true_iff in Hw as (Hw & Hr).
    apply andb_true_iff in Hw as (Hop & Hl).
    assert (Hb : scans (operator_lexeme op :: lexemes (right_level op) r)).
    { destruct (operator_lexeme op) as [text tok] eqn:E.
      apply scans_one; [| apply IHr, Hr | apply (begins_chars r Hr)].
      intros s f Hs.
      pose proof (tokenize_operator op s f Hop Hs) as H. rewrite E in H.
      exact H. }
    apply scans_bracket.
    + apply scans_app; [apply IHl, Hl | exact Hb | |].
      * destruct op; try discriminate Hop; reflexivity.
      * destruct op; try discriminate Hop; discriminate.
    + rewrite map_app, concat_app. apply begins_app, (begins_chars l Hl).
Qed.

Lemma lexemes_length e :
  well_written e = true ->
  forall p, (List.length (lexemes p e) <= List.length (chars p e))%nat.
Proof.
  unfold chars.
  assert (Hbr : forall b body,
            (List.length body <= List.length (List.concat (map fst body)))%nat ->
            (List.length (bracket b body)
             <= List.length (List.concat (map fst (bracket b body))))%nat).
  { intros b body H. rewrite chars_bracket.
    destruct b; cbn [bracket List.length]; [|exact H].
    rewrite !length_app. cbn [List.length]. lia. }
  induction e as [n | op x IH | l IHl op r IHr]; intros Hw p; cbn [lexemes].
  - destruct (literal_text_digit n Hw) as (d & s & E & _).
    cbn [map fst List.concat List.length]. rewrite app_nil_r, E.
    cbn [List.length]. lia.
  - cbn [well_written] in Hw. apply andb_true_iff in Hw as (Hop & Hx).
    apply Hbr. cbn [map List.concat List.length]. rewrite length_app.
    specialize (IH Hx 2%nat).
    destruct op; try discriminate Hop; cbn [unary_lexeme fst List.length]; lia.
  - cbn [well_written] in Hw.
    apply andb_true_iff in Hw as (Hw & Hr).
    apply andb_true_iff in Hw as (Hop & Hl).
    apply Hbr. rewrite map_app, concat_app, !length_app.
    cbn [map List.concat List.length]. rewrite length_app.
    specialize (IHl Hl (left_level op)). specialize (IHr Hr (right_level op)).
    destruct op; try discriminate Hop;
      cbn [operator_lexeme fst List.length]; lia.
Qed.

Lemma tokenize_chars e :
  well_written e = true ->
  tokenize (S (List.length (chars 0 e))) (chars 0 e) = Some (toks 0 e).
Proof.
  intros Hw. pose proof (lexemes_length e Hw 0) as Hlen.
  pose proof (scans_lexemes e Hw 0 []
                (S (List.length (chars 0 e)) - List.length (lexemes 0 e))%nat
                eq_refl) as H.
  rewrite app_nil_r in H.
  replace (List.length (lexemes 0 e)
           + (S (List.length (chars 0 e)) - List.length (lexemes 0 e)))%nat
    with (S (List.length (chars 0 e))) in H by lia.
  fold (chars 0 e) in H. rewrite H.
  destruct (S (List.length (chars 0 e)) - List.length (lexemes 0 e))%nat
    as [| f] eqn:E; [lia|].
  cbn [tokenize option_map]. unfold toks. rewrite app_nil_r. reflexivity.
Qed.

(** The text of a written expression has no whitespace. *)
Lemma digit_not_whitespace c : is_digit c = true -> is_whitespace c = false.
Proof.
  unfold is_digit, is_whitespace, code. intros H.
  apply andb_true_iff in H as (H1 & H2).
  apply Nat.leb_le in H1. apply Nat.leb_le in H2.
  repeat (apply orb_false_iff; split);
    try (apply andb_false_iff);
    try (apply Nat.eqb_neq; lia).
  - right. apply Nat.leb_gt. lia.
  - right. apply Nat.leb_gt. lia.
Qed.

Lemma digits_no_whitespace ds :
  forallb is_digit ds = true -> no_whitespace ds = true.
Proof.
  unfold no_whitespace. induction ds as [| d ds IH]; [reflexivity|].
  cbn [forallb]. intros H. apply andb_true_iff in H as (Hd & H).
  rewrite (digit_not_whitespace d Hd), IH by exact H. reflexivity.
Qed.

Lemma chars_no_whitespace e :
  well_written e = true -> forall p, no_whitespace (chars p e) = true.
Proof.
  unfold chars, no_whitespace.
  assert (Hbr : forall b body,
            forallb (fun c => negb (is_whitespace c))
              (List.concat (map fst body)) = true ->
            forallb (fun c => negb (is_whitespace c))
              (List.concat (map fst (bracket b body))) = true).
  { intros b body H. rewrite chars_bracket. destruct b; [|exact H].
    cbn [forallb]. rewrite forallb_app, H. reflexivity. }
  induction e as [n | op x IH | l IHl op r IHr]; intros Hw p; cbn [lexemes].
  - cbn [map fst List.concat]. rewrite app_nil_r.
    destruct n as [ds | whole fraction];
      cbn [well_written_literal literal_text] in *.
    + apply andb_true_iff in Hw as (Hw & _).
      apply andb_true_iff in Hw as (Hd & _). apply digits_no_whitespace, Hd.
    + apply andb_true_iff in Hw as (Hw & _).
      apply andb_true_iff in Hw as (Hd & Hf).
      rewrite forallb_app. cbn [forallb].
      fold (no_whitespace whole). fold (no_whitespace fraction).
      rewrite !digits_no_whitespace by assumption. reflexivity.
  - cbn [well_written] in Hw. apply andb_true_iff in Hw as (Hop & Hx).
    apply Hbr. cbn [map List.concat]. rewrite forallb_app, (IH Hx).
    destruct op; try discriminate Hop; reflexivity.
  - cbn [well_written] in Hw.
    apply andb_true_iff in Hw as (Hw & Hr).
    apply andb_true_iff in Hw as (Hop & Hl).
    apply Hbr. rewrite map_app, concat_app, forallb_app, (IHl Hl).
    cbn [map List.concat]. rewrite forallb_app, (IHr Hr).
    destruct op; try discriminate Hop; reflexivity.
Qed.

Lemma lstrip_no_whitespace s : no_whitespace s = true -> lstrip s = s.
Proof.
  destruct s as [| c s]; [reflexivity|]. cbn [no_whitespace forallb lstrip].
  destruct (is_whitespace c); [discriminate | reflexivity].
Qed.

Lemma strip_show e :
  well_written e = true ->
  strip (show e) = show e /\ show e <> EmptyString
  /\ list_ascii_of_string (show e) = chars 0 e.
Proof.
  intros Hw. unfold show. fold (chars 0 e).
  pose proof (chars_no_whitespace e Hw 0) as Hs.
  split; [|split].
  - unfold strip. rewrite list_ascii_of_string_of_list_ascii.
    rewrite (lstrip_no_whitespace _ Hs).
    rewrite lstrip_no_whitespace, rev_involutive; [reflexivity|].
    unfold no_whitespace. rewrite forallb_rev. exact Hs.
  - pose proof (begins_chars e Hw 0) as Hb.
    destruct (chars 0 e); [discriminate Hb | discriminate].
  - apply list_ascii_of_string_of_list_ascii.
Qed.

Lemma parse_show e :
  well_written e = true -> parse (show e) = Some (Expression (tree e)).
Proof.
  intros Hw. unfold parse.
  destruct (strip_show e Hw) as (_ & _ & ->).
  rewrite (tokenize_chars e Hw).
  rewrite expressions_written; [reflexivity | exact Hw | lia].
Qed.

End ReadingProofs.

(** C5.  [safe_eval] reads an expression with the standard precedence
    and associativity of its operators: for every arithmetic expression
    of at most 100 levels, written with the brackets that these make
    necessary and no others, the parser returns the tree of the
    expression and [safe_eval] the value of that tree, which is also
    what the visit gives on the interpreter's stack with some 310 frames
    left; and [safe_eval] does so with every parser that reads the text
    as that tree, the reading being the parser's alone.  ["2+3*4"] is
    read as [2+(3*4)] and evaluates to 14; ["2**3**2"] is read as
    [2**(3**2)] and evaluates to 512. *)
Theorem safe_eval_precedence (h : host) :
  (forall e, well_written e = true -> (depth (tree e) <= 100)%nat ->
     Parser.parse (show e) = Some (Expression (tree e))
     /\ safe_eval h Parser.parse (show e) = visit h (tree e)
     /\ forall isinstance_depth frames,
          (310 + isinstance_depth <= frames)%nat ->
          visit_mod_frames h isinstance_depth (Expression (tree e)) frames
          = Within (visit h (tree e)))
  /\ (forall ast_parse e, well_written e = true ->
        (depth (tree e) <= 100)%nat ->
        ast_parse (show e) = Some (Expression (tree e)) ->
        safe_eval h ast_parse (show e) = visit h (tree e))
  /\ Parser.parse "2+3*4"
     = Some (Expression (BinOp (Constant (CInt 2)) Add
                           (BinOp (Constant (CInt 3)) Mult (Constant (CInt 4)))))
  /\ safe_eval h Parser.parse "2+3*4" = Return (VInt 14)
  /\ Parser.parse "2**3**2"
     = Some (Expression (BinOp (Constant (CInt 2)) Pow
                           (BinOp (Constant (CInt 3)) Pow (Constant (CInt 2)))))
  /\ safe_eval h Parser.parse "2**3**2" = Return (VInt 512)
  /\ (let two := Number (Integer ["2"%char]) in
      let three := Number (Integer ["3"%char]) in
      let four := Number (Integer ["4"%char]) in
      show (Binary two Add (Binary three Mult four)) = "2+3*4"
      /\ show (Binary (Binary two Add three) Mult four) = "(2+3)*4"
      /\ show (Binary two Pow (Binary three Pow two)) = "2**3**2"
      /\ show (Binary (Binary two Pow three) Pow two) = "(2**3)**2"
      /\ show (Binary (Binary two Sub three) Sub four) = "2-3-4"
      /\ show (Binary two Sub (Binary three Sub four)) = "2-(3-4)"
      /\ show (Binary (Binary two Div three) Mult four) = "2/3*4"
      /\ show (Binary two Div (Binary three Mult four)) = "2/(3*4)"
      /\ show (Unary USub (Binary two Pow four)) = "-2**4"
      /\ show (Binary (Unary USub two) Pow four) = "(-2)**4"
      /\ show (Binary two Pow (Unary USub four)) = "2**-4"
      /\ show (Binary two Mult (Unary USub three)) = "2*-3"
      /\ show (Binary (Unary USub two) Mult three) = "-2*3"
      /\ show (Unary USub (Binary two Mult three)) = "-(2*3)").
Proof.
  assert (H : forall ast_parse e, well_written e = true ->
            ast_parse (show e) = Some (Expression (tree e)) ->
            safe_eval h ast_parse (show e) = visit h (tree e)).
  { intros ast_parse e Hw Hp. destruct (strip_show e Hw) as (Hs & Hn & _).
    apply safe_eval_parsed; rewrite Hs; [exact Hn | exact Hp]. }
  split; [|split; [intros ast_parse e Hw _; apply H, Hw | repeat split]].
  intros e Hw Hd. pose proof (parse_show e Hw) as Hp.
  split; [exact Hp|]. split; [apply H; [exact Hw | exact Hp]|].
  intros c frames Hf.
  rewrite visit_mod_frames_eq, guarded_enough by lia.
  apply visit_frames_enough. lia.
Qed.

Lemma safe_eval_precedence_witness :
  Parser.parse "2-3-4**-(1.5+2)*7"
  = Some (Expression
            (BinOp (BinOp (Constant (CInt 2)) Sub (Constant (CInt 3))) Sub
               (BinOp (BinOp (Constant (CInt 4)) Pow
                         (UnaryOp USub
                            (BinOp (Constant (CFloat 1.5)) Add
                               (Constant (CInt 2)))))
                  Mult (Constant (CInt 7))))).
Proof.
  destruct (safe_eval_precedence sample_host) as (H & _).
  apply (H (Binary (Binary (Number (Integer ["2"%char])) Sub
                      (Number (Integer ["3"%char]))) Sub
              (Binary (Binary (Number (Integer ["4"%char])) Pow
                         (Unary USub
                            (Binary (Number (Decimal ["1"%char] ["5"%char]))
                               Add (Number (Integer ["2"%char])))))
                 Mult (Number (Integer ["7"%char]))))).
  - reflexivity.
  - apply Nat.leb_le. reflexivity.
Defined.

(** ** C6: division and modulo by zero *)

(** C6, counterexample.  The operand that a name evaluates to is [None],
    and [None / 0] and [None % 0] fail with [TypeError]; an integer too
    large for a float, divided by [0.0], fails with [OverflowError]: in
    both cases the right operand equals 0 and the failure is not
    [ZeroDivisionError]. *)
Lemma C6_zero_divisor_other_error :
  Parser.parse "x/0"
  = Some (Expression (BinOp (Name "x" Load) Div (Constant (CInt 0))))
  /\ (forall h, visit h (Name "x" Load) = Return VNone)
  /\ equals_zero (VInt 0) = true
  /\ (forall h, safe_eval h Parser.parse "x/0" = Raise TypeError)
  /\ (forall h, safe_eval h Parser.parse "x%0" = Raise TypeError)
  /\ (forall h, safe_eval h Parser.parse "2**1024/0.0" = Raise OverflowError).
Proof. repeat split. Qed.

Lemma to_float_as_double v x :
  to_float v = Some x ->
  exists n, number_of v = Some n /\ as_double n = Return x.
Proof.
  unfold to_float.
  destruct v; try discriminate; simpl;
    match goal with
    | |- context [long_as_double ?z] =>
        destruct (long_as_double z) eqn:E; [|discriminate];
        intros H; injection H as ->; eexists; split; [reflexivity | exact E]
    | _ => intros H; injection H as ->; eexists; split; reflexivity
    end.
Qed.

Lemma zero_divisor_raises h l r :
  is_real l = true -> is_real r = true ->
  (is_float r = true -> to_float l <> None) ->
  equals_zero r = true ->
  truediv h l r = Raise ZeroDivisionError
  /\ mod_ h l r = Raise ZeroDivisionError.
Proof.
  intros Hl Hr Hfit Hz. unfold truediv, mod_, binary.
  destruct r as [| b | z | y |]; try discriminate; simpl in Hz.
  - (* right is False *)
    apply negb_true_iff in Hz. subst b.
    destruct l as [| b | z | x |]; try discriminate; simpl; split; reflexivity.
  - (* right is the integer 0 *)
    apply Z.eqb_eq in Hz. subst z.
    destruct l as [| b | z | x |]; try discriminate; simpl; split; reflexivity.
  - (* right is a float zero *)
    specialize (Hfit eq_refl).
    destruct (to_float l) as [x |] eqn:Hx; [|congruence].
    apply to_float_as_double in Hx as (n & Hn & Hd).
    destruct l as [| b | z | f |]; try discriminate;
      simpl in Hn; injection Hn as <-; simpl in Hd |- *;
      try rewrite Hd; simpl; unfold float_rem; rewrite Hz; split; reflexivity.
Qed.

(** *** The float of an integer that is not 0 is not 0 *)

Lemma digits2_pos_bounds p :
  2 ^ (Z.pos (digits2_pos p) - 1) <= Z.pos p < 2 ^ Z.pos (digits2_pos p).
Proof.
  assert (step : forall d : positive,
            2 ^ (Z.pos (Pos.succ d) - 1) = 2 * 2 ^ (Z.pos d - 1)
            /\ 2 ^ Z.pos (Pos.succ d) = 2 * 2 ^ Z.pos d).
  { intros d. rewrite Pos2Z.inj_succ.
    replace (Z.succ (Z.pos d) - 1) with (Z.succ (Z.pos d - 1)) by lia.
    rewrite !Z.pow_succ_r; lia. }
  induction p as [p IH | p IH |]; cbn [digits2_pos].
  - destruct (step (digits2_pos p)) as [-> ->]. rewrite (Pos2Z.inj_xI p). lia.
  - destruct (step (digits2_pos p)) as [-> ->]. rewrite (Pos2Z.inj_xO p). lia.
  - vm_compute. split; [discriminate | reflexivity].
Qed.

Lemma digits2_pos_unique p k :
  2 ^ (k - 1) <= Z.pos p < 2 ^ k -> Z.pos (digits2_pos p) = k.
Proof.
  intros [Hl Hu]. pose proof (digits2_pos_bounds p) as [Bl Bu].
  set (d := Z.pos (digits2_pos p)) in *.
  assert (0 < k).
  { destruct (Z.ltb_spec 0 k) as [|Hk]; [assumption|].
    assert (2 ^ k <= 1); [|lia].
    destruct (Z.eq_dec k 0) as [-> | Hn]; [simpl; lia|].
    rewrite Z.pow_neg_r by lia. lia. }
  assert (d - 1 < k).
  { apply (Z.pow_lt_mono_r_iff 2); lia. }
  assert (k - 1 < d).
  { apply (Z.pow_lt_mono_r_iff 2); lia. }
  lia.
Qed.

Lemma iter_pos_iter {A} (f : A -> A) n x : iter_pos f n x = Pos.iter f x n.
Proof.
  revert x. induction n as [n IH | n IH |]; intros x; simpl;
    rewrite ?IH, ?Pos.iter_swap; reflexivity.
Qed.

Lemma shr_1_m mrs : 0 <= shr_m mrs -> shr_m (shr_1 mrs) = shr_m mrs / 2.
Proof.
  destruct mrs as [m r s]. simpl. intros Hm.
  destruct m as [| [p | p |] | p]; simpl; try lia; try reflexivity.
  - apply (Z.div_unique _ 2 _ 1); lia.
  - apply (Z.div_unique _ 2 _ 0); lia.
Qed.

Lemma shr_iter_m n mrs :
  0 <= shr_m mrs -> shr_m (iter_pos shr_1 n mrs) = shr_m mrs / 2 ^ Z.pos n.
Proof.
  intros Hm. rewrite iter_pos_iter.
  induction n as [| n IH] using Pos.peano_ind.
  - simpl. rewrite shr_1_m by assumption. reflexivity.
  - rewrite Pos.iter_succ, shr_1_m.
    + rewrite IH, Pos2Z.inj_succ, Z.pow_succ_r by lia.
      rewrite Z.div_div by lia. f_equal. lia.
    + rewrite IH. apply Z.div_pos; lia.
Qed.

Lemma iter_xO p d : Z.pos (Pos.iter xO p d) = Z.pos p * 2 ^ Z.pos d.
Proof.
  induction d as [| d IH] using Pos.peano_ind.
  - simpl. lia.
  - rewrite Pos.iter_succ, Pos2Z.inj_xO, IH, Pos2Z.inj_succ, Z.pow_succ_r by lia.
    lia.
Qed.

(** The second shift of [binary_round_aux], on a mantissa of 53 bits or
    on [2^53]. *)
Lemma round_mantissa s m e :
  2 ^ 52 <= m <= 2 ^ 53 -> -1074 <= e ->
  finite_or_infinite s
    (let '(mrs, e') := shr_fexp prec emax m e loc_Exact in
     match shr_m mrs with
     | Z0 => S754_zero s
     | Zpos m' => if e' <=? emax - prec then S754_finite s m' e'
                  else S754_infinity s
     | Zneg _ => S754_nan
     end).
Proof.
  intros Hm He. destruct m as [| q |]; try (simpl in Hm; lia).
  unfold shr_fexp. cbn [Zdigits2 shr_record_of_loc].
  destruct (Z.ltb_spec (Z.pos q) (2 ^ 53)) as [Hlt | Hge].
  - rewrite (digits2_pos_unique q 53) by (change (53 - 1) with 52; lia).
    replace (fexp prec emax (53 + e) - e) with 0
      by (unfold fexp, emin; change prec with 53; change emax with 1024; lia).
    cbn [shr shr_m].
    destruct (Z.leb_spec e (emax - prec)) as [Hb | Hb]; [right | left; reflexivity].
    exists q, e. split; [reflexivity|].
    unfold valid_binary, SpecFloat.valid_binary, bounded, canonical_mantissa.
    rewrite (digits2_pos_unique q 53) by (change (53 - 1) with 52; lia).
    apply andb_true_intro. split; [apply Z.eqb_eq | apply Z.leb_le; exact Hb].
    unfold fexp, emin; change prec with 53; change emax with 1024; lia.
  - assert (Eq : Z.pos q = 2 ^ 53) by lia.
    rewrite (digits2_pos_unique q 54) by (change (54 - 1) with 53; rewrite Eq; split; [lia | reflexivity]).
    replace (fexp prec emax (54 + e) - e) with 1
      by (unfold fexp, emin; change prec with 53; change emax with 1024; lia).
    cbn [shr iter_pos].
    assert (Em : shr_m (shr_1 {| shr_m := Z.pos q; shr_r := false; shr_s := false |}) = 2 ^ 52).
    { rewrite shr_1_m by (simpl; lia). cbn [shr_m]. rewrite Eq. reflexivity. }
    destruct (shr_m (shr_1 _)) as [| q' |] eqn:Eq'; try discriminate Em.
    destruct (Z.leb_spec (e + 1) (emax - prec)) as [Hb | Hb]; [right | left; reflexivity].
    exists q', (e + 1). split; [reflexivity|].
    unfold valid_binary, SpecFloat.valid_binary, bounded, canonical_mantissa.
    rewrite (digits2_pos_unique q' 53) by (rewrite Em; split; [reflexivity | reflexivity]).
    apply andb_true_intro. split; [apply Z.eqb_eq | apply Z.leb_le; exact Hb].
    unfold fexp, emin; change prec with 53; change emax with 1024; lia.
Qed.

Lemma fexp_eq e : -1021 <= e -> fexp prec emax e = e - 53.
Proof.
  intros H. unfold fexp, emin. change prec with 53. change emax with 1024. lia.
Qed.

Lemma binary_round_aux_int s mx ex :
  53 <= Z.pos (digits2_pos mx) -> -1074 <= ex ->
  finite_or_infinite s (binary_round_aux prec emax s (Z.pos mx) ex loc_Exact).
Proof.
  intros Hd He. unfold binary_round_aux.
  pose proof (digits2_pos_bounds mx) as [Bl Bu].
  set (d := Z.pos (digits2_pos mx)) in *.
  destruct (shr_fexp prec emax (Z.pos mx) ex loc_Exact) as [mrs' e'] eqn:E1.
  assert (H1 : 2 ^ 52 <= shr_m mrs' < 2 ^ 53 /\ -1074 <= e').
  { unfold shr_fexp in E1. cbn [Zdigits2 shr_record_of_loc] in E1.
    fold d in E1. rewrite fexp_eq in E1 by lia.
    replace (d + ex - 53 - ex) with (d - 53) in E1 by lia.
    destruct (d - 53) as [| n | n] eqn:En; try lia.
    - cbn [shr] in E1. injection E1 as <- <-. cbn [shr_m].
      replace d with 53 in * by lia. change (53 - 1) with 52 in Bl. lia.
    - cbn [shr] in E1. injection E1 as <- <-.
      rewrite shr_iter_m by (cbn [shr_m]; lia). cbn [shr_m].
      assert (P1 : 2 ^ (d - 1) = 2 ^ Z.pos n * 2 ^ 52).
      { rewrite <- Z.pow_add_r by lia. f_equal. lia. }
      assert (P2 : 2 ^ d = 2 ^ Z.pos n * 2 ^ 53).
      { rewrite <- Z.pow_add_r by lia. f_equal. lia. }
      assert (0 < 2 ^ Z.pos n) by (apply Z.pow_pos_nonneg; lia).
      split; [split|lia].
      + apply Z.div_le_lower_bound; lia.
      + apply Z.div_lt_upper_bound; lia. }
  destruct H1 as (Hm & He').
  apply round_mantissa; [|exact He'].
  unfold round_nearest_even.
  destruct (loc_of_shr_record mrs') as [| [| |]]; try lia;
    destruct (Z.even (shr_m mrs')); lia.
Qed.

Lemma binary_round_int s p :
  finite_or_infinite s (binary_round prec emax s p 0).
Proof.
  unfold binary_round.
  pose proof (digits2_pos_bounds p) as [Bl Bu].
  remember (Z.pos (digits2_pos p)) as d eqn:Ed.
  assert (Hd : 1 <= d) by lia.
  destruct (shl_align p 0 (fexp prec emax (d + 0))) as [mz ez] eqn:E.
  unfold shl_align in E. rewrite fexp_eq in E by lia.
  replace (d + 0 - 53 - 0) with (d + 0 - 53) in E by lia.
  remember (d + 0 - 53) as e0 eqn:Ee0.
  destruct e0 as [| n | n].
  - injection E as <- <-. apply binary_round_aux_int; lia.
  - injection E as <- <-. apply binary_round_aux_int; lia.
  - injection E as <- <-.
    assert (Hz : Z.pos (Pos.iter xO p n) = Z.pos p * 2 ^ Z.pos n)
      by apply iter_xO.
    assert (P1 : 2 ^ 52 = 2 ^ (d - 1) * 2 ^ Z.pos n).
    { rewrite <- Z.pow_add_r by lia. f_equal. lia. }
    assert (P2 : 2 ^ 53 = 2 ^ d * 2 ^ Z.pos n).
    { rewrite <- Z.pow_add_r by lia. f_equal. lia. }
    assert (0 < 2 ^ Z.pos n) by (apply Z.pow_pos_nonneg; lia).
    apply binary_round_aux_int; [|lia].
    rewrite (digits2_pos_unique _ 53); [lia|].
    change (53 - 1) with 52. rewrite Hz, P1, P2. nia.
Qed.

Lemma round_Z_nonzero z : z <> 0 -> PrimFloat.eqb (round_Z z 0) 0 = false.
Proof.
  intros Hz. unfold round_Z.
  assert (H : exists s, finite_or_infinite s (binary_normalize prec emax z 0 false)).
  { destruct z as [| p | p]; [contradiction | exists false | exists true];
      apply binary_round_int. }
  destruct H as (s & [-> | (m & e & -> & Hv)]).
  - destruct s; reflexivity.
  - rewrite eqb_spec, Prim2SF_SF2Prim by exact Hv.
    destruct s; reflexivity.
Qed.

Lemma long_as_double_nonzero z y :
  z <> 0 -> long_as_double z = Return y -> PrimFloat.eqb y 0 = false.
Proof.
  intros Hz. unfold long_as_double. cbv zeta.
  destruct (is_infinity (round_Z z 0)); [discriminate|].
  intros E. injection E as <-. apply round_Z_nonzero, Hz.
Qed.

Lemma float_rem_remainder x y :
  PrimFloat.eqb y 0 = false ->
  float_rem x y = Return (VFloat (float_remainder x y)).
Proof.
  intros Hy. unfold float_rem, float_remainder. rewrite Hy. cbv zeta.
  destruct (PrimFloat.eqb (fmod x y) 0); cbn [negb]; [reflexivity|].
  destruct (Bool.eqb _ _); reflexivity.
Qed.

Lemma long_as_double_Raise z e :
  long_as_double z = Raise e -> e = OverflowError.
Proof.
  unfold long_as_double. cbv zeta.
  destruct (is_infinity _); intros E; [injection E as <-; reflexivity | discriminate].
Qed.

Lemma float_divisor (x : result float) (y : float) :
  PrimFloat.eqb y 0 = false ->
  (forall e, x = Raise e -> e = OverflowError) ->
  (a <- x ;; b <- Return y ;;
   if PrimFloat.eqb b 0 then Raise ZeroDivisionError
   else Return (VFloat (a / b)%float))
  = match x with
    | Return a => Return (VFloat (a / y)%float)
    | Raise _ => Raise OverflowError
    end
  /\ (a <- x ;; b <- Return y ;; float_rem a b)
     = match x with
       | Return a => Return (VFloat (float_remainder a y))
       | Raise _ => Raise OverflowError
       end.
Proof.
  intros Hy Hx. destruct x as [a | e]; simpl.
  - rewrite Hy, float_rem_remainder by exact Hy. split; reflexivity.
  - rewrite (Hx e eq_refl). split; reflexivity.
Qed.

Lemma int_divisor (x : float) (z : Z) :
  z <> 0 ->
  (a <- Return x ;; b <- long_as_double z ;;
   if PrimFloat.eqb b 0 then Raise ZeroDivisionError
   else Return (VFloat (a / b)%float))
  = match long_as_double z with
    | Return b => Return (VFloat (x / b)%float)
    | Raise _ => Raise OverflowError
    end
  /\ (a <- Return x ;; b <- long_as_double z ;; float_rem a b)
     = match long_as_double z with
       | Return b => Return (VFloat (float_remainder x b))
       | Raise _ => Raise OverflowError
       end.
Proof.
  intros Hz. simpl.
  destruct (long_as_double z) as [b | e] eqn:E; simpl.
  - pose proof (long_as_double_nonzero z b Hz E) as Hb.
    rewrite Hb, float_rem_remainder by exact Hb. split; reflexivity.
  - rewrite (long_as_double_Raise z e E). split; reflexivity.
Qed.

Lemma int_operands (a b : Z) :
  b <> 0 ->
  (q <- long_true_divide a b ;; Return (VFloat q))
  = (if is_infinity (nearest_quotient a b) then Raise OverflowError
     else Return (VFloat (nearest_quotient a b)))
  /\ (if b =? 0 then Raise ZeroDivisionError else Return (VInt (a mod b)))
     = Return (VInt (a mod b)).
Proof.
  intros Hb. unfold long_true_divide, nearest_quotient.
  destruct (Z.eqb_spec b 0) as [|_]; [contradiction|]. cbv zeta.
  split; [destruct (is_infinity _)|]; reflexivity.
Qed.

Lemma nonzero_divisor h l r :
  is_real l = true -> is_real r = true -> equals_zero r = false ->
  truediv h l r = quotient l r /\ mod_ h l r = remainder l r.
Proof.
  intros Hl Hr Hz. unfold truediv, mod_, binary, quotient, remainder.
  destruct r as [| b | z | y |]; try discriminate; simpl in Hz.
  - (* right is True *)
    apply negb_false_iff in Hz. subst b.
    destruct l as [| b' | z' | x |]; try discriminate;
      cbn [number_of to_int].
    + apply int_operands. discriminate.
    + apply int_operands. discriminate.
    + exact (int_divisor x 1 ltac:(discriminate)).
  - (* right is an integer that is not 0 *)
    apply Z.eqb_neq in Hz.
    destruct l as [| b' | z' | x |]; try discriminate;
      cbn [number_of to_int].
    + apply int_operands. exact Hz.
    + apply int_operands. exact Hz.
    + unfold to_float. cbn [number_of as_double].
      destruct (int_divisor x z Hz) as (-> & ->).
      destruct (long_as_double z); split; reflexivity.
  - (* right is a float that is not 0 *)
    destruct l as [| b' | z' | x |]; try discriminate;
      cbn [number_of to_int]; unfold to_float; cbn [number_of as_double].
    + destruct (float_divisor (long_as_double (if b' then 1 else 0)) y Hz
                  (long_as_double_Raise _)) as (-> & ->).
      destruct (long_as_double _); split; reflexivity.
    + destruct (float_divisor (long_as_double z') y Hz
                  (long_as_double_Raise _)) as (-> & ->).
      destruct (long_as_double _); split; reflexivity.
    + destruct (float_divisor (Return x) y Hz) as (-> & ->);
        [discriminate | split; reflexivity].
Qed.

Lemma quotient_not_ZeroDivisionError l r :
  quotient l r <> Raise ZeroDivisionError
  /\ remainder l r <> Raise ZeroDivisionError.
Proof.
  unfold quotient, remainder.
  destruct (to_int l), (to_int r), (to_float l), (to_float r);
    try destruct (is_infinity _); split; discriminate.
Qed.

Lemma ZeroDivision_zero_divisor h l r :
  is_real l = true -> is_real r = true ->
  (truediv h l r = Raise ZeroDivisionError -> equals_zero r = true)
  /\ (mod_ h l r = Raise ZeroDivisionError -> equals_zero r = true).
Proof.
  intros Hl Hr. destruct (equals_zero r) eqn:Hz; [tauto|].
  destruct (nonzero_divisor h l r Hl Hr Hz) as (-> & ->).
  destruct (quotient_not_ZeroDivisionError l r) as (Hq & Hm).
  split; intros E; [destruct (Hq E) | destruct (Hm E)].
Qed.

(** C6, amended.  ["5/0"] and ["5%0"] fail with [ZeroDivisionError].
    [visit_BinOp] returns [left / right] and [left % right] of the values
    of the operands.  For operands that are numbers of [int], [bool] or
    [float]: division and modulo fail with [ZeroDivisionError] when the
    right operand equals 0 (an integer left of a float zero being within
    the range of a float), and only then; otherwise they return the
    quotient and the remainder, or fail with [OverflowError].  The
    remainder of two integers is the one of the floor division, with the
    sign of the divisor. *)
Theorem division_and_modulo_by_zero :
  (forall h, safe_eval h Parser.parse "5/0" = Raise ZeroDivisionError)
  /\ (forall h, safe_eval h Parser.parse "5%0" = Raise ZeroDivisionError)
  /\ (forall h x y,
        visit h (BinOp x Div y)
        = (l <- visit h x ;; r <- visit h y ;; truediv h l r)
        /\ visit h (BinOp x Mod y)
           = (l <- visit h x ;; r <- visit h y ;; mod_ h l r))
  /\ (forall h l r,
        is_real l = true -> is_real r = true ->
        (equals_zero r = true ->
         (is_float r = true -> to_float l <> None) ->
         truediv h l r = Raise ZeroDivisionError
         /\ mod_ h l r = Raise ZeroDivisionError)
        /\ (truediv h l r = Raise ZeroDivisionError -> equals_zero r = true)
        /\ (mod_ h l r = Raise ZeroDivisionError -> equals_zero r = true)
        /\ (equals_zero r = false ->
            truediv h l r = quotient l r /\ mod_ h l r = remainder l r))
  /\ (forall a b, b <> 0 ->
        remainder (VInt a) (VInt b) = Return (VInt (a mod b))
        /\ a = b * (a / b) + a mod b
        /\ (0 <= a mod b < b \/ b < a mod b <= 0))
  /\ (forall h,
        safe_eval h Parser.parse "7/2" = Return (VFloat 3.5)
        /\ safe_eval h Parser.parse "-7/2" = Return (VFloat (-3.5))
        /\ safe_eval h Parser.parse "7.5/2.5" = Return (VFloat 3)
        /\ safe_eval h Parser.parse "7%3" = Return (VInt 1)
        /\ safe_eval h Parser.parse "-7%3" = Return (VInt 2)
        /\ safe_eval h Parser.parse "7%-3" = Return (VInt (-2))
        /\ safe_eval h Parser.parse "5.5%2" = Return (VFloat 1.5)
        /\ safe_eval h Parser.parse "-5.5%2" = Return (VFloat 0.5)
        /\ safe_eval h Parser.parse "5.5%-2" = Return (VFloat (-0.5))).
Proof.
  split; [reflexivity|]. split; [reflexivity|].
  split; [intros h x y; split; reflexivity|].
  split.
  { intros h l r Hl Hr. split.
    - intros Hz Hfit. apply zero_divisor_raises; assumption.
    - destruct (ZeroDivision_zero_divisor h l r Hl Hr) as (Hq & Hm).
      split; [exact Hq|]. split; [exact Hm|].
      apply nonzero_divisor; assumption. }
  split.
  { intros a b Hb. split; [reflexivity|]. split.
    - apply Z.div_mod. exact Hb.
    - destruct (Z.lt_trichotomy b 0) as [H | [H | H]]; [right | contradiction | left].
      + apply Z.mod_neg_bound. exact H.
      + apply Z.mod_pos_bound. exact H. }
  intros h. repeat split.
Qed.

Lemma division_and_modulo_by_zero_witness :
  (truediv sample_host (VInt 5) (VFloat 0) = Raise ZeroDivisionError
   /\ mod_ sample_host (VInt 5) (VFloat 0) = Raise ZeroDivisionError)
  /\ (truediv sample_host (VFloat 7) (VInt 2) = Return (VFloat 3.5)
      /\ mod_ sample_host (VFloat 7) (VInt 2) = Return (VFloat 1)).
Proof.
  destruct division_and_modulo_by_zero as (_ & _ & _ & H & _).
  destruct (H sample_host (VInt 5) (VFloat 0) eq_refl eq_refl) as (H0 & _).
  destruct (H sample_host (VFloat 7) (VInt 2) eq_refl eq_refl)
    as (_ & _ & _ & H1).
  split; [apply H0; [reflexivity | intros _; discriminate]|].
  apply H1. reflexivity.
Defined.

(** ** C7: the empty expression *)

Lemma visit_mod_ValueError h node msg :
  visit_mod h node = Raise (ValueError msg) -> visitor_message msg.
Proof. destruct node as [body]. apply visit_ValueError. Qed.

Lemma Empty_expression_not_visitor_message :
  ~ visitor_message "Empty expression".
Proof.
  intros [(cls & _ & E) | [E | [E | E]]]; discriminate E.
Qed.

(** C7.  [safe_eval] fails with [ValueError("Empty expression")] exactly
    when every character of the input is whitespace (the empty string
    included), whatever the parser answers on the other inputs; so it does
    on the empty string and on three spaces. *)
Theorem safe_eval_Empty_expression
    (h : host) (ast_parse : string -> option ast_mod) :
  (forall expr,
     safe_eval h ast_parse expr = Raise (ValueError "Empty expression")
     <-> forallb is_whitespace (list_ascii_of_string expr) = true)
  /\ safe_eval h ast_parse EmptyString = Raise (ValueError "Empty expression")
  /\ safe_eval h ast_parse "   " = Raise (ValueError "Empty expression").
Proof.
  split; [|split; reflexivity].
  intros expr. rewrite <- strip_empty. unfold safe_eval.
  destruct (String.eqb_spec (strip expr) EmptyString) as [E | NE].
  - tauto.
  - split; [|contradiction].
    destruct (ast_parse (strip expr)) as [node |]; [|discriminate].
    intros H. apply visit_mod_ValueError in H.
    destruct (Empty_expression_not_visitor_message H).
Qed.

(** ** C8: unary plus and minus *)

(** C8.  [UnaryOp(UAdd, x)] evaluates to [+v] and [UnaryOp(USub, x)] to
    [-v], for the value [v] of the operand [x]: on a number, the number
    and its opposite.  ["-3+4"] evaluates to 1 and ["-(3+4)"] to -7. *)
Theorem visit_UnaryOp_plus_minus (h : host) :
  (forall x, visit h (UnaryOp UAdd x) = v <- visit h x ;; pos v)
  /\ (forall x, visit h (UnaryOp USub x) = v <- visit h x ;; neg v)
  /\ (forall z, pos (VInt z) = Return (VInt z)
                /\ neg (VInt z) = Return (VInt (- z)))
  /\ (forall f, pos (VFloat f) = Return (VFloat f)
                /\ neg (VFloat f) = Return (VFloat (- f)%float))
  /\ safe_eval h Parser.parse "-3+4" = Return (VInt 1)
  /\ safe_eval h Parser.parse "-(3+4)" = Return (VInt (-7)).
Proof. repeat split. Qed.

(** ** C9: no normalisation in the evaluator *)

(** C9.  [safe_eval] returns the value of the visit as it is: a float
    without a fractional part stays a float, and it is
    [CalculatorApp.calculate] that makes it an [int].  ["4/2"] evaluates
    to the float 2.0, which [calculate] shows as 2. *)
Theorem safe_eval_keeps_integral_float :
  (forall h, safe_eval h Parser.parse "4/2" = Return (VFloat 2)
             /\ calculate h Parser.parse "4/2" = Return (VInt 2))
  /\ (forall h ast_parse expr body f z,
        strip expr <> EmptyString ->
        ast_parse (strip expr) = Some (Expression body) ->
        visit h body = Return (VFloat f) ->
        integral_value f = Some z ->
        safe_eval h ast_parse expr = Return (VFloat f)
        /\ calculate h ast_parse expr = Return (VInt z)).
Proof.
  split; [intros h; split; reflexivity|].
  intros h ast_parse expr body f z NE Hp Hv Hz.
  unfold calculate. rewrite (safe_eval_parsed h ast_parse expr body NE Hp), Hv.
  simpl. rewrite Hz. split; reflexivity.
Qed.

Lemma safe_eval_keeps_integral_float_witness :
  safe_eval sample_host Parser.parse " 6/4*2 " = Return (VFloat 3)
  /\ calculate sample_host Parser.parse " 6/4*2 " = Return (VInt 3).
Proof.
  destruct safe_eval_keeps_integral_float as (_ & H).
  apply (H sample_host Parser.parse " 6/4*2 "
           (BinOp (BinOp (Constant (CInt 6)) Div (Constant (CInt 4))) Mult
              (Constant (CInt 2))) 3%float 3);
    try reflexivity.
  discriminate.
Defined.

(** ** C10: calls, names and tuples *)

(** C10, counterexample.  ["abs(x.y)"] parses to a [Call] and
    [safe_eval] raises the disallowed-expression error of the argument;
    ["(1/0,2)"] parses to a [Tuple] and [safe_eval] raises
    [ZeroDivisionError]: neither call returns [None]. *)
Lemma C10_call_with_failing_child :
  Parser.parse "abs(x.y)"
  = Some (Expression (Call (Name "abs" Load)
                        [Attribute (Name "x" Load) "y" Load] []))
  /\ (forall h, safe_eval h Parser.parse "abs(x.y)"
                = Raise (ValueError "Disallowed expression: Attribute"))
  /\ Parser.parse "(1/0,2)"
     = Some (Expression
               (Tuple [BinOp (Constant (CInt 1)) Div (Constant (CInt 0));
                       Constant (CInt 2)] Load))
  /\ (forall h, safe_eval h Parser.parse "(1/0,2)" = Raise ZeroDivisionError).
Proof. repeat split. Qed.

Lemma visit_each_Return {A} (visit : A -> result value) l v :
  visit_each visit l = Return v -> v = VNone.
Proof.
  induction l as [| x l IH]; simpl; intros E; [congruence|].
  apply bind_Return_inv in E as (_ & _ & E). apply IH, E.
Qed.

Lemma visit_context_Return ctx v : visit_context ctx = Return v -> v = VNone.
Proof. destruct ctx; cbv; congruence. Qed.

Lemma first_raise_app l1 l2 :
  first_raise (l1 ++ l2) = _ <- first_raise l1 ;; first_raise l2.
Proof.
  induction l1 as [| [v | e] l1 IH]; simpl; [reflexivity | exact IH | reflexivity].
Qed.

Lemma visit_each_first_raise {A} (visit : A -> result value) l :
  visit_each visit l = first_raise (map visit l).
Proof.
  induction l as [| x l IH]; simpl; [reflexivity|].
  destruct (visit x); simpl; [exact IH | reflexivity].
Qed.

Lemma bind_first_raise r l : (_ <- r ;; first_raise l) = first_raise (r :: l).
Proof. destruct r; reflexivity. Qed.

Lemma bind_Return_VNone (r : result value) :
  (forall v, r = Return v -> v = VNone) -> (_ <- r ;; Return VNone) = r.
Proof.
  destruct r as [v | e]; simpl; intros H; [rewrite (H v eq_refl)|]; reflexivity.
Qed.

(** C10, amended.  A [Call], a [Name] or a [Tuple] passes the allow-list
    check and is left to the generic visitor, which visits the children
    in the order of the fields: the visit returns [None] when the visits
    of the children all return, and raises the exception of the first
    child that fails otherwise.  So it never returns a number and never
    raises the disallowed-expression error for the node itself.
    ["abs(4)"] evaluates to [None]. *)
Theorem visit_Call_Name_Tuple (h : host) (node : expr) :
  is_call_name_tuple node = true ->
  isinstance (class_name node) ALLOWED_NODES = true
  /\ visit h node = first_raise (children_results h node)
  /\ (forall v, visit h node = Return v -> v = VNone)
  /\ visit h node
     <> Raise (ValueError ("Disallowed expression: " ++ class_name node))
  /\ safe_eval h Parser.parse "abs(4)" = Return VNone.
Proof.
  intros Hk. split; [destruct node; try discriminate; reflexivity|].
  split.
  { destruct node; try discriminate.
    - change (visit h (Call node args keywords))
        with (_ <- visit h node ;; _ <- visit_each (visit h) args ;;
              _ <- visit_each (visit_keyword h) keywords ;; Return VNone).
      unfold children_results.
      rewrite (bind_Return_VNone (visit_each (visit_keyword h) keywords))
        by apply visit_each_Return.
      rewrite !visit_each_first_raise, <- first_raise_app.
      apply bind_first_raise.
    - change (visit h (Name id ctx)) with (visit_context ctx).
      destruct ctx; reflexivity.
    - change (visit h (Tuple elts ctx))
        with (_ <- visit_each (visit h) elts ;; visit_context ctx).
      unfold children_results.
      rewrite first_raise_app, visit_each_first_raise.
      destruct (first_raise (map (visit h) elts)); simpl; [|reflexivity].
      destruct ctx; reflexivity. }
  split; [|split; [|reflexivity]].
  - intros v E. destruct node; try discriminate.
    + change (visit h (Call node args keywords))
        with (_ <- visit h node ;; _ <- visit_each (visit h) args ;;
              _ <- visit_each (visit_keyword h) keywords ;; Return VNone) in E.
      apply bind_Return_inv in E as (_ & _ & E).
      apply bind_Return_inv in E as (_ & _ & E).
      apply bind_Return_inv in E as (_ & _ & E). congruence.
    + change (visit h (Name id ctx)) with (visit_context ctx) in E.
      apply visit_context_Return in E. exact E.
    + change (visit h (Tuple elts ctx))
        with (_ <- visit_each (visit h) elts ;; visit_context ctx) in E.
      apply bind_Return_inv in E as (_ & _ & E).
      apply visit_context_Return in E. exact E.
  - intros E. apply visit_ValueError in E.
    destruct E as [(cls & Hcls & E) | [E | [E | E]]].
    + destruct node; try discriminate Hk; simpl in E;
        injection E as <-; discriminate Hcls.
    + destruct node; discriminate.
    + destruct node; discriminate.
    + destruct node; discriminate.
Qed.

Lemma visit_Call_Name_Tuple_witness :
  is_call_name_tuple (Call (Name "abs" Load) [Constant (CInt 4)] []) = true
  /\ visit sample_host (Call (Name "abs" Load) [Constant (CInt 4)] [])
     = first_raise [Return VNone; Return (VInt 4)]
  /\ visit sample_host (Call (Name "abs" Load) [Constant (CInt 4)] [])
     <> Raise (ValueError "Disallowed expression: Call").
Proof.
  split; [reflexivity|].
  split;
    apply (visit_Call_Name_Tuple sample_host
             (Call (Name "abs" Load) [Constant (CInt 4)] []));
    reflexivity.
Defined.

(** * Further properties *)

(** ** The keyboard and the buttons *)

Lemma list_ascii_of_string_app s t :
  list_ascii_of_string (s ++ t)%string
  = (list_ascii_of_string s ++ list_ascii_of_string t)%list.
Proof. induction s as [| a s IH]; simpl; [reflexivity | rewrite IH; reflexivity]. Qed.

Lemma chars_in_app set s t :
  chars_in set (s ++ t)%string = chars_in set s && chars_in set t.
Proof. unfold chars_in. rewrite list_ascii_of_string_app. apply forallb_app. Qed.

Lemma chars_in_tail a set s :
  chars_in set s = true -> chars_in (String a set) s = true.
Proof.
  unfold chars_in. rewrite !forallb_forall. intros H c Hc.
  simpl. rewrite (H c Hc). apply orb_true_r.
Qed.

Lemma prefix_chars_in sub s :
  String.prefix sub s = true -> chars_in s sub = true.
Proof.
  revert sub. induction s as [| b s IH]; intros [| a sub]; simpl;
    try reflexivity; try discriminate.
  destruct (ascii_dec a b) as [-> | _]; [|discriminate].
  intros H. unfold chars_in. simpl. rewrite Ascii.eqb_refl. simpl.
  apply (chars_in_tail b), IH, H.
Qed.

Lemma contains_chars_in s sub :
  CalculatorApp.contains s sub = true -> chars_in s sub = true.
Proof.
  induction s as [| b s IH]; simpl; intros H.
  - rewrite orb_false_r in H. apply prefix_chars_in. exact H.
  - apply orb_true_iff in H as [H | H].
    + apply prefix_chars_in. exact H.
    + apply chars_in_tail, IH, H.
Qed.

(** X1.  [on_key] leaves the display as it is or appends the key's text
    to it, and what it appends is made of the characters
    [0123456789.+-*/()%] only: a display made of these characters stays
    made of them. *)
Theorem on_key_appends_allowed_characters (display char : string) :
  (exists suffix,
     CalculatorApp.on_key display char = (display ++ suffix)%string
     /\ chars_in CalculatorApp.allowed suffix = true)
  /\ chars_in CalculatorApp.allowed (CalculatorApp.on_key display char)
     = chars_in CalculatorApp.allowed display.
Proof.
  unfold CalculatorApp.on_key.
  destruct (CalculatorApp.contains CalculatorApp.allowed char) eqn:E.
  - apply contains_chars_in in E. split.
    + exists char. split; [reflexivity | exact E].
    + rewrite chars_in_app, E. apply andb_true_r.
  - split; [|reflexivity].
    exists EmptyString. split; [|reflexivity].
    clear. induction display as [| a d IH]; simpl; congruence.
Qed.

Lemma drop_last_app_one s a :
  CalculatorApp.drop_last (s ++ String a EmptyString)%string = s.
Proof.
  induction s as [| b s IH]; simpl; [reflexivity|].
  rewrite IH. destruct s; reflexivity.
Qed.

Lemma length_drop_last s :
  String.length (CalculatorApp.drop_last s) = Nat.pred (String.length s).
Proof.
  induction s as [| b s IH]; simpl; [reflexivity|].
  destruct s as [| c s]; [reflexivity|].
  change (S (String.length (CalculatorApp.drop_last (String c s)))
          = S (String.length s)).
  rewrite IH. reflexivity.
Qed.

(** X2.  A button that is not [=] appends its character and reports no
    error, whatever the display and without evaluating it; [backspace]
    then gives the display back.  [backspace] removes one character, and
    leaves an empty display empty. *)
Theorem backspace_undoes_on_button
    (h : host) (ast_parse : string -> option ast_mod)
    (str : value -> result string) (display : string) (c : ascii) :
  c <> "="%char ->
  CalculatorApp.on_button h ast_parse str display (String c EmptyString)
  = ((display ++ String c EmptyString)%string, None)
  /\ CalculatorApp.backspace
       (fst (CalculatorApp.on_button h ast_parse str display
               (String c EmptyString)))
     = display
  /\ String.length (CalculatorApp.backspace display)
     = Nat.pred (String.length display).
Proof.
  intros Hc. unfold CalculatorApp.on_button, CalculatorApp.backspace.
  assert (E : String.eqb (String c EmptyString) "=" = false).
  { apply String.eqb_neq. congruence. }
  rewrite E. simpl. rewrite drop_last_app_one, length_drop_last.
  repeat split.
Qed.

Lemma backspace_undoes_on_button_witness :
  CalculatorApp.backspace
    (fst (CalculatorApp.on_button sample_host Parser.parse
            sample_str "12+" "7"))
  = "12+".
Proof.
  apply (backspace_undoes_on_button sample_host Parser.parse
           sample_str "12+" "7"%char).
  discriminate.
Defined.

(** ** The bracket button *)

Lemma count_app s t c :
  CalculatorApp.count (s ++ t)%string c
  = (CalculatorApp.count s c + CalculatorApp.count t c)%nat.
Proof. induction s as [| a s IH]; simpl; [reflexivity | rewrite IH; lia]. Qed.

Lemma append_closing s n :
  (s ++ String ")" (closing n))%string = ((s ++ ")") ++ closing n)%string.
Proof. induction s as [| a s IH]; simpl; [reflexivity | rewrite IH; reflexivity]. Qed.

Lemma insert_parens_unbalanced display :
  CalculatorApp.count display "("%char <> CalculatorApp.count display ")"%char ->
  CalculatorApp.insert_parens display = (display ++ ")")%string.
Proof.
  intros H. unfold CalculatorApp.insert_parens.
  apply Nat.eqb_neq in H. rewrite H. reflexivity.
Qed.

Lemma iter_insert_parens_succ n display :
  Nat.iter (S n) CalculatorApp.insert_parens display
  = Nat.iter n CalculatorApp.insert_parens (CalculatorApp.insert_parens display).
Proof.
  induction n as [| n IH]; [reflexivity|].
  change (Nat.iter (S (S n)) CalculatorApp.insert_parens display)
    with (CalculatorApp.insert_parens
            (Nat.iter (S n) CalculatorApp.insert_parens display)).
  rewrite IH. reflexivity.
Qed.

(** X3.  On a display with as many [(] as [)], [insert_parens] appends
    [(]; on a display with [n] more [(] than [)], [n] presses append [n]
    closing brackets, and then the display has as many [(] as [)]. *)
Theorem insert_parens_closes_open_brackets (display : string) (n : nat) :
  CalculatorApp.count display "("%char
  = (CalculatorApp.count display ")"%char + n)%nat ->
  (n = O -> CalculatorApp.insert_parens display = (display ++ "(")%string)
  /\ Nat.iter n CalculatorApp.insert_parens display
     = (display ++ closing n)%string
  /\ CalculatorApp.count (Nat.iter n CalculatorApp.insert_parens display) "("%char
     = CalculatorApp.count (Nat.iter n CalculatorApp.insert_parens display) ")"%char.
Proof.
  intros H. split.
  - intros ->. unfold CalculatorApp.insert_parens.
    rewrite H, Nat.add_0_r, Nat.eqb_refl. reflexivity.
  - revert display H. induction n as [| n IH]; intros display H.
    + simpl. rewrite Nat.add_0_r in H. split; [|exact H].
      clear. induction display as [| a d IH]; simpl; congruence.
    + rewrite iter_insert_parens_succ.
      rewrite insert_parens_unbalanced by lia.
      destruct (IH (display ++ ")")%string) as (E1 & E2).
      { rewrite !count_app. simpl. lia. }
      rewrite E1 in E2 |- *. split; [|exact E2].
      simpl. rewrite append_closing. reflexivity.
Qed.

Lemma insert_parens_closes_open_brackets_witness :
  Nat.iter 2 CalculatorApp.insert_parens "2*((3+4" = "2*((3+4))".
Proof.
  apply (insert_parens_closes_open_brackets "2*((3+4" 2). reflexivity.
Defined.

(** X4.  On a display with more [)] than [(], [insert_parens] appends
    [)], and however often it is pressed the display keeps more [)]
    than [(]: the button never balances such a display. *)
Theorem insert_parens_never_balances (display : string) (n : nat) :
  (CalculatorApp.count display "("%char
   < CalculatorApp.count display ")"%char)%nat ->
  Nat.iter n CalculatorApp.insert_parens display = (display ++ closing n)%string
  /\ (CalculatorApp.count (Nat.iter n CalculatorApp.insert_parens display) "("%char
      < CalculatorApp.count (Nat.iter n CalculatorApp.insert_parens display) ")"%char)%nat.
Proof.
  revert display. induction n as [| n IH]; intros display H.
  - simpl. split; [|exact H].
    clear. induction display as [| a d IH]; simpl; congruence.
  - rewrite iter_insert_parens_succ.
    rewrite insert_parens_unbalanced by lia.
    destruct (IH (display ++ ")")%string) as (E1 & E2).
    { rewrite !count_app. simpl. lia. }
    rewrite E1 in E2 |- *. split; [|exact E2].
    simpl. rewrite append_closing. reflexivity.
Qed.

Lemma insert_parens_never_balances_witness :
  Nat.iter 3 CalculatorApp.insert_parens "1)" = "1))))".
Proof.
  apply (insert_parens_never_balances "1)" 3). simpl. lia.
Defined.

(** ** The sign button and the equals button *)

(** X5.  On a display that does not start with a minus sign and whose
    opposite cannot be computed, with or without a minus sign in front
    (an unfinished expression, the empty display), [negate] puts a minus
    sign in front, and a second [negate] takes it away again. *)
Theorem negate_toggles_minus_sign
    (h : host) (ast_parse : string -> option ast_mod)
    (str : value -> result string) (display : string) :
  String.prefix "-" display = false ->
  (display <> EmptyString ->
   exists e, CalculatorApp.opposite_text h ast_parse str display = Raise e) ->
  (exists e, CalculatorApp.opposite_text h ast_parse str ("-" ++ display)
             = Raise e) ->
  CalculatorApp.negate h ast_parse str display = ("-" ++ display)%string
  /\ CalculatorApp.negate h ast_parse str
       (CalculatorApp.negate h ast_parse str display)
     = display.
Proof.
  intros Hminus Hfail (e' & Hfail').
  assert (E : CalculatorApp.negate h ast_parse str display
              = ("-" ++ display)%string).
  { unfold CalculatorApp.negate.
    destruct (String.eqb_spec display EmptyString) as [-> | NE]; [reflexivity|].
    destruct (Hfail NE) as (e & ->). rewrite Hminus. reflexivity. }
  split; [exact E|]. rewrite E.
  unfold CalculatorApp.negate. simpl String.eqb.
  change (("-" ++ display)%string) with (String "-" display) in *.
  rewrite Hfail'. simpl.
  destruct (ascii_dec "-" "-"); [destruct display; reflexivity | congruence].
Qed.

Lemma negate_toggles_minus_sign_witness :
  CalculatorApp.negate sample_host Parser.parse sample_str "2+" = "-2+"
  /\ CalculatorApp.negate sample_host Parser.parse sample_str
       (CalculatorApp.negate sample_host Parser.parse sample_str "2+")
     = "2+".
Proof.
  apply (negate_toggles_minus_sign sample_host Parser.parse sample_str "2+").
  - reflexivity.
  - intros _. exists SyntaxError. reflexivity.
  - exists SyntaxError. reflexivity.
Defined.

(** X6.  When the [=] button reports an error, the display is left as it
    was; and on a display that is empty or blank it reports
    [ValueError("Empty expression")], whatever the parser and [str]. *)
Theorem equals_button_keeps_display_on_error
    (h : host) (ast_parse : string -> option ast_mod)
    (str : value -> result string) (display : string) :
  (forall text e,
     CalculatorApp.on_button h ast_parse str display "=" = (text, Some e) ->
     text = display)
  /\ (forallb is_whitespace (list_ascii_of_string display) = true ->
      CalculatorApp.on_button h ast_parse str display "="
      = (display, Some (ValueError "Empty expression"))).
Proof.
  unfold CalculatorApp.on_button. simpl String.eqb. cbv iota.
  unfold CalculatorApp.calculate. split.
  - intros text e.
    destruct (bind (calculate h ast_parse display) (fun v => str v));
      intros E; [discriminate E | injection E as <- _; reflexivity].
  - intros Hb. apply strip_empty in Hb.
    unfold calculate, safe_eval. rewrite Hb. reflexivity.
Qed.

Lemma equals_button_keeps_display_on_error_witness :
  CalculatorApp.on_button sample_host Parser.parse sample_str "  " "="
  = ("  ", Some (ValueError "Empty expression")).
Proof.
  apply (equals_button_keeps_display_on_error sample_host Parser.parse
           sample_str "  ").
  reflexivity.
Defined.

(** ** The evaluator on whole trees *)

Lemma visit_BinOp_eq h l op r :
  visit h (BinOp l op r) = visit_BinOp h (visit h) l op r.
Proof. reflexivity. Qed.

Lemma visit_UnaryOp_eq h op operand :
  visit h (UnaryOp op operand) = visit_UnaryOp (visit h) op operand.
Proof. reflexivity. Qed.



Lemma visit_each_Return_forallb {A} (visit : A -> result value)
    (p : A -> bool) (l : list A) v :
  Forall (fun x => forall v, visit x = Return v -> p x = true) l ->
  visit_each visit l = Return v -> forallb p l = true.
Proof.
  induction 1 as [| x l Hx _ IH]; simpl; intros E; [reflexivity|].
  apply bind_Return_inv in E as (a & Ea & E).
  rewrite (Hx a Ea), (IH E). reflexivity.
Qed.

Lemma visit_each_keyword_Return h (l : list keyword) v :
  visit_each (visit_keyword h) l = Return v -> l = [].
Proof.
  destruct l as [| [arg value] l]; [reflexivity|]. simpl.
  intros E. discriminate E.
Qed.

Lemma visit_context_Load ctx v : visit_context ctx = Return v -> ctx = Load.
Proof. destruct ctx; cbv; intros E; [reflexivity | discriminate | discriminate]. Qed.

(** X8.  The allow-list holds for the whole tree: when [visit] returns a
    value, every node of the tree has a class of [ALLOWED_NODES], every
    constant is an [int], a [float] or a [bool], every operator is one
    that [visit_BinOp] or [visit_UnaryOp] carries out, every context is
    [Load] and no call has a keyword argument.  A tree with an attribute
    access, a subscript, a comparison, a string or an unsupported
    operator anywhere in it is never evaluated to a value. *)
Theorem visit_returns_only_on_vetted_tree (h : host) (node : expr) (v : value) :
  visit h node = Return v -> vetted node = true.
Proof.
  revert v.
  induction node using expr_nested_ind
    with (Q := fun kw => forall v, visit_keyword h kw = Return v -> False);
    intros v E; try (cbn in E; discriminate E).
  - (* BinOp *)
    rewrite visit_BinOp_eq in E. unfold visit_BinOp in E.
    apply bind_Return_inv in E as (a & Ea & E).
    apply bind_Return_inv in E as (b & Eb & E).
    simpl. rewrite (IHnode1 a Ea), (IHnode2 b Eb).
    destruct op; try discriminate E; reflexivity.
  - (* UnaryOp *)
    rewrite visit_UnaryOp_eq in E. unfold visit_UnaryOp in E.
    apply bind_Return_inv in E as (a & Ea & E).
    simpl. rewrite (IHnode a Ea).
    destruct op; try discriminate E; reflexivity.
  - (* Call *)
    change (visit h (Call node args kws))
      with (_ <- visit h node ;; _ <- visit_each (visit h) args ;;
            _ <- visit_each (visit_keyword h) kws ;; Return VNone) in E.
    apply bind_Return_inv in E as (a & Ea & E).
    apply bind_Return_inv in E as (b & Eb & E).
    apply bind_Return_inv in E as (c & Ec & _).
    simpl. rewrite (IHnode a Ea).
    rewrite (visit_each_Return_forallb _ vetted args b H Eb).
    apply visit_each_keyword_Return in Ec. subst kws. reflexivity.
  - (* Constant *)
    destruct c; try discriminate E; reflexivity.
  - (* Name *)
    change (visit h (Name id ctx)) with (visit_context ctx) in E.
    apply visit_context_Load in E. subst ctx. reflexivity.
  - (* Tuple *)
    change (visit h (Tuple elts ctx))
      with (_ <- visit_each (visit h) elts ;; visit_context ctx) in E.
    apply bind_Return_inv in E as (a & Ea & E).
    apply visit_context_Load in E. subst ctx. simpl.
    exact (visit_each_Return_forallb _ vetted elts a H Ea).
Qed.

Lemma visit_returns_only_on_vetted_tree_witness :
  vetted (Call (Name "abs" Load) [Constant (CInt 4)] []) = true.
Proof.
  apply (visit_returns_only_on_vetted_tree sample_host
           (Call (Name "abs" Load) [Constant (CInt 4)] []) VNone).
  reflexivity.
Defined.












(** ** [safe_eval] and [calculate] *)

Lemma lstrip_app_whitespace a l :
  forallb is_whitespace a = true -> lstrip (a ++ l) = lstrip l.
Proof.
  induction a as [| c a IH]; simpl; [reflexivity|].
  intros H. apply andb_true_iff in H as (Hc & Ha). rewrite Hc. apply IH, Ha.
Qed.

Lemma lstrip_app_kept m l :
  lstrip m <> [] -> lstrip (m ++ l) = (lstrip m ++ l)%list.
Proof.
  induction m as [| c m IH]; simpl; [congruence|].
  destruct (is_whitespace c); [exact IH | reflexivity].
Qed.

Lemma strip_padding a s b :
  forallb is_whitespace (list_ascii_of_string a) = true ->
  forallb is_whitespace (list_ascii_of_string b) = true ->
  strip (a ++ s ++ b)%string = strip s.
Proof.
  intros Ha Hb. unfold strip. f_equal. f_equal.
  rewrite !list_ascii_of_string_app.
  set (la := list_ascii_of_string a) in *.
  set (lb := list_ascii_of_string b) in *.
  set (m := list_ascii_of_string s).
  rewrite (lstrip_app_whitespace la _ Ha).
  destruct (lstrip m) as [| c m'] eqn:Em.
  - apply lstrip_nil in Em.
    rewrite lstrip_app_whitespace by exact Em.
    apply lstrip_nil in Hb. rewrite Hb. reflexivity.
  - rewrite lstrip_app_kept by congruence. rewrite Em.
    rewrite rev_app_distr.
    apply lstrip_app_whitespace. rewrite forallb_rev. exact Hb.
Qed.

(** X11.  Whitespace around the expression does not count: [safe_eval]
    gives the same result, value or exception, with and without it. *)
Theorem safe_eval_ignores_surrounding_whitespace
    (h : host) (ast_parse : string -> option ast_mod) (a expr b : string) :
  forallb is_whitespace (list_ascii_of_string a) = true ->
  forallb is_whitespace (list_ascii_of_string b) = true ->
  safe_eval h ast_parse (a ++ expr ++ b)%string = safe_eval h ast_parse expr.
Proof.
  intros Ha Hb. unfold safe_eval. rewrite (strip_padding a expr b Ha Hb).
  reflexivity.
Qed.

Lemma safe_eval_ignores_surrounding_whitespace_witness :
  safe_eval sample_host Parser.parse "  2+3*4 "
  = safe_eval sample_host Parser.parse "2+3*4".
Proof.
  exact (safe_eval_ignores_surrounding_whitespace sample_host Parser.parse
           "  " "2+3*4" " " eq_refl eq_refl).
Defined.

(** X12.  [calculate] fails exactly when [safe_eval] fails, with the same
    exception; and a float it returns is one that [safe_eval] returned
    and that is not equal to an integer: a float without a fractional
    part never reaches the display as a float. *)
Theorem calculate_result
    (h : host) (ast_parse : string -> option ast_mod) (expr : string) :
  (forall e, calculate h ast_parse expr = Raise e
             <-> safe_eval h ast_parse expr = Raise e)
  /\ (forall f, calculate h ast_parse expr = Return (VFloat f) ->
                safe_eval h ast_parse expr = Return (VFloat f)
                /\ integral_value f = None).
Proof.
  unfold calculate. destruct (safe_eval h ast_parse expr) as [v | e']; simpl.
  - split.
    + intros e. split; discriminate.
    + intros f E. injection E as E.
      destruct v as [| b | z | f' | c]; try discriminate E. simpl in E.
      destruct (integral_value f') eqn:Ei; [discriminate E|].
      injection E as <-. split; [reflexivity | exact Ei].
  - split.
    + intros e. tauto.
    + intros f E. discriminate E.
Qed.

Lemma calculate_result_witness :
  safe_eval sample_host Parser.parse "1/4" = Return (VFloat 0.25)
  /\ integral_value 0.25 = None.
Proof.
  destruct (calculate_result sample_host Parser.parse "1/4") as (_ & H).
  apply (H 0.25%float). reflexivity.
Defined.

(** X13.  The [ValueError]s of the visitor: one that the visit of a tree
    raises carries one of the four messages of [_SafeEval], Python's
    arithmetic raising none; and each of the four is raised: by a list,
    by [//], by [~] and by a string. *)
Theorem visit_ValueError_messages (h : host) :
  (forall node msg,
     visit_mod h node = Raise (ValueError msg) -> visitor_message msg)
  /\ visit h (List [] Load) = Raise (ValueError "Disallowed expression: List")
  /\ visit h (BinOp (Constant (CInt 7)) FloorDiv (Constant (CInt 2)))
     = Raise (ValueError "Unsupported operator")
  /\ visit h (UnaryOp Invert (Constant (CInt 7)))
     = Raise (ValueError "Unsupported unary operator")
  /\ visit h (Constant (CStr "7"))
     = Raise (ValueError "Only numeric constants are allowed").
Proof.
  split; [exact (visit_mod_ValueError h) | repeat split].
Qed.

Lemma visit_ValueError_messages_witness :
  visitor_message "Unsupported operator".
Proof.
  destruct (visit_ValueError_messages sample_host) as (H & _).
  apply (H (Expression (BinOp (Constant (CInt 7)) FloorDiv (Constant (CInt 2))))).
  reflexivity.
Defined.
